(** * McCulloch-Pitts neurons and the truth-table decoder

    A shallow embedding of the code cells of
    [demos/mcculloch-pitts/McCulloch-Pitts Neurons.ipynb]: the classes
    [MPInput], [MPNeuron] and [Decoder] and the gates [AND], [OR], [NOT].

    The Python code works on mutable objects that are shared by reference:
    an [MPInput] is reachable from the [inputs] list of its neuron and, for
    the last decoder unit, from the closure variable [inputs] as well; the
    list [decoder_units] is reversed in place by every call of the closure.
    The embedding therefore keeps an explicit object store and runs the code
    in a state-and-exception monad over it. *)

From stdpp Require Import base list.
From Stdlib Require Import ZArith Lia.

Local Open Scope Z_scope.

(** ** Objects and the store *)

(** A reference is the index of an object in the store. *)
Abbreviation ref := nat (only parsing).

(** An instance of [class MPInput]: the two attributes set by [__init__]. *)
Record MPInput := mkMPInput {
  excitatory : bool;
  value : Z
}.

(** An instance of [class MPNeuron]. Its attributes are never reassigned
    and the list bound to [inputs] is never mutated once the neuron holds
    it, so the neuron is a value holding references to its inputs. *)
Record MPNeuron := mkMPNeuron {
  threshold : Z;
  inputs : list ref
}.

(** The store: the [MPInput] instances, and the Python lists of neurons
    that are mutated in place (one [decoder_units] list per closure). *)
Record store := mkStore {
  objs : list MPInput;
  cells : list (list MPNeuron)
}.

Definition empty_store : store := mkStore [] [].

(** The exceptions the code can raise. [InvalidRef] does not exist in
    Python, where a reference always points to a live object; it makes the
    store lookups total. *)
Inductive exn := IndexError | AssertionError | NameError | InvalidRef.

(** ** The monad: a computation runs on a store, returns a value or raises,
    and leaves a store behind in both cases. *)
Definition Py (A : Type) : Type := store -> (exn + A) * store.

Definition ret {A} (x : A) : Py A := fun s => (inr x, s).

Definition raise {A} (e : exn) : Py A := fun s => (inl e, s).

Definition bind {A B} (m : Py A) (k : A -> Py B) : Py B :=
  fun s =>
    match m s with
    | (inr x, s') => k x s'
    | (inl e, s') => (inl e, s')
    end.

Declare Scope py_scope.
Delimit Scope py_scope with py.
Notation "x <- m ;; k" := (bind m (fun x => k))
  (at level 100, m at next level, right associativity) : py_scope.
Notation "m ;; k" := (bind m (fun _ => k))
  (at level 100, right associativity) : py_scope.
Local Open Scope py_scope.

(** The value a computation returns from a store, or the exception it
    raises. *)
Definition result {A} (m : Py A) (s : store) : exn + A := fst (m s).

(** [l[i]] for a non-negative [i]. *)
Definition index {A} (l : list A) (i : nat) : Py A :=
  match l !! i with
  | Some x => ret x
  | None => raise IndexError
  end.

(** [for x in l: body(x)] for a body without [break] or [return]. *)
Fixpoint for_each {A} (l : list A) (body : A -> Py unit) : Py unit :=
  match l with
  | [] => ret tt
  | x :: l' => body x ;; for_each l' body
  end.

(** [range(n)]. *)
Definition range (n : nat) : list nat := seq 0 n.

(** [sum(vector)]. *)
Definition sum (vector : list Z) : Z := foldl Z.add 0 vector.

(** ** class MPInput *)

(** [MPInput(excitatory)]: a new object whose [value] is 0. *)
Definition MPInput_new (exc : bool) : Py ref :=
  fun s => (inr (length (objs s)),
            mkStore (objs s ++ [mkMPInput exc 0]) (cells s)).

(** Attribute access on an input object. *)
Definition read (r : ref) : Py MPInput :=
  fun s =>
    match objs s !! r with
    | Some o => (inr o, s)
    | None => (inl InvalidRef, s)
    end.

(** [MPInput.trigger]: [self.value = value]. *)
Definition trigger (self : ref) (v : Z) : Py unit :=
  fun s =>
    match objs s !! self with
    | Some o => (inr tt, mkStore (<[self := mkMPInput (excitatory o) v]> (objs s)) (cells s))
    | None => (inl InvalidRef, s)
    end.

(** ** class MPNeuron *)

(** The loop of [MPNeuron.activate] with its accumulator [excitations];
    [if trigger.value:] is Python's truth test of an integer. *)
Fixpoint activate_loop (thr excitations : Z) (l : list ref) : Py Z :=
  match l with
  | [] => ret (if excitations >=? thr then 1 else 0)
  | r :: l' =>
      t <- read r ;;
      if excitatory t then activate_loop thr (excitations + value t) l'
      else if negb (value t =? 0) then ret 0
      else activate_loop thr excitations l'
  end.

Definition activate (self : MPNeuron) : Py Z :=
  activate_loop (threshold self) 0 (inputs self).

(** ** The gates *)

Definition AND (x1 x2 : Z) : Py Z :=
  a <- MPInput_new true ;;
  b <- MPInput_new true ;;
  let inputs := [a; b] in
  let gate := mkMPNeuron 2 inputs in
  i0 <- index inputs 0 ;;
  trigger i0 x1 ;;
  i1 <- index inputs 1 ;;
  trigger i1 x2 ;;
  activate gate.

Definition OR (x1 x2 : Z) : Py Z :=
  a <- MPInput_new true ;;
  b <- MPInput_new true ;;
  let inputs := [a; b] in
  let gate := mkMPNeuron 1 inputs in
  i0 <- index inputs 0 ;;
  trigger i0 x1 ;;
  i1 <- index inputs 1 ;;
  trigger i1 x2 ;;
  activate gate.

Definition NOT (x : Z) : Py Z :=
  a <- MPInput_new false ;;
  let inputs := [a] in
  let gate := mkMPNeuron 0 inputs in
  i0 <- index inputs 0 ;;
  trigger i0 x ;;
  activate gate.

(** ** class Decoder *)

Record Decoder := mkDecoder {
  vectors : list (list Z);
  vec_length : nat
}.

(** A generator expression evaluates to a generator object; its body runs
    only when the object is iterated. The truth value of a generator object
    is [True] whatever it would yield. *)
Definition generator (A : Type) : Type := unit -> list A.

Definition truth_of_generator {A} (g : generator A) : bool := true.

(** [Decoder.__init__]. [self.vectors[0]] raises [IndexError] on an empty
    list; the [assert] is given the generator object itself. *)
Definition Decoder_init (vecs : list (list Z)) : Py Decoder :=
  v0 <- index vecs 0 ;;
  let vec_length := length v0 in
  let g : generator bool :=
    fun _ => map (fun vec => Nat.eqb (length vec) vec_length) vecs in
  if truth_of_generator g
  then ret (mkDecoder vecs vec_length)
  else raise AssertionError.

(** The closure returned by [decode]: the captured [self.vec_length], the
    variable [inputs] of [decode] as the loop over the vectors left it
    (unbound when the loop body never ran) and the list object
    [decoder_units]. *)
Record closure := mkClosure {
  cl_vec_length : nat;
  cl_inputs : option (list ref);
  cl_decoder_units : nat
}.

(** The inner loop of [decode]: one [MPInput] per position of [vector]. *)
Fixpoint build_inputs (vector : list Z) (idxs : list nat) (inputs : list ref)
  : Py (list ref) :=
  match idxs with
  | [] => ret inputs
  | i :: idxs' =>
      vi <- index vector i ;;
      r <- (if vi =? 1 then MPInput_new true else MPInput_new false) ;;
      build_inputs vector idxs' (inputs ++ [r])
  end.

(** The body of the outer loop of [decode]: the decoder unit of a vector. *)
Definition decoder_unit (n : nat) (vector : list Z) : Py MPNeuron :=
  let threshold := sum vector in
  inputs <- build_inputs vector (range n) [] ;;
  ret (mkMPNeuron threshold inputs).

(** The outer loop of [decode], threading [decoder_units] and [inputs]. *)
Fixpoint decode_loop (n : nat) (vecs : list (list Z))
    (decoder_units : list MPNeuron) (cur_inputs : option (list ref))
  : Py (list MPNeuron * option (list ref)) :=
  match vecs with
  | [] => ret (decoder_units, cur_inputs)
  | vector :: vecs' =>
      gate <- decoder_unit n vector ;;
      decode_loop n vecs' (decoder_units ++ [gate]) (Some (inputs gate))
  end.

(** The list [decoder_units] becomes an object of the store when the
    closure that captures it is made. *)
Definition new_cell (l : list MPNeuron) : Py nat :=
  fun s => (inr (length (cells s)), mkStore (objs s) (cells s ++ [l])).

Definition get_cell (c : nat) : Py (list MPNeuron) :=
  fun s =>
    match cells s !! c with
    | Some l => (inr l, s)
    | None => (inl InvalidRef, s)
    end.

(** [decoder_units.reverse()]: in place. *)
Definition reverse_cell (c : nat) : Py unit :=
  fun s =>
    match cells s !! c with
    | Some l => (inr tt, mkStore (objs s) (<[c := reverse l]> (cells s)))
    | None => (inl InvalidRef, s)
    end.

Definition decode (self : Decoder) : Py closure :=
  built <- decode_loop (vec_length self) (vectors self) [] None ;;
  c <- new_cell (fst built) ;;
  ret (mkClosure (vec_length self) (snd built) c).

(** [for i in range(n): unit.inputs[i].trigger(args[i])], on the inputs of
    a neuron. *)
Definition trigger_inputs (n : nat) (inputs : list ref) (args : list Z) : Py unit :=
  for_each (range n) (fun i =>
    r <- index inputs i ;;
    a <- index args i ;;
    trigger r a).

(** The loop [for unit in decoder_units] of the closure, threading [or_arg]. *)
Fixpoint decoder_loop (n : nat) (args : list Z) (units : list MPNeuron)
    (or_arg : Z) : Py Z :=
  match units with
  | [] => ret or_arg
  | unit :: units' =>
      trigger_inputs n (inputs unit) args ;;
      val <- activate unit ;;
      or_arg' <- OR or_arg val ;;
      decoder_loop n args units' or_arg'
  end.

(** Reading the variable [inputs] of [decode] from inside the closure. *)
Definition var_inputs (f : closure) : Py (list ref) :=
  match cl_inputs f with
  | Some l => ret l
  | None => raise NameError
  end.

(** The closure [decoder], called with the argument tuple [args]. *)
Definition decoder (f : closure) (args : list Z) : Py Z :=
  for_each (range (cl_vec_length f)) (fun i =>
    inputs <- var_inputs f ;;
    r <- index inputs i ;;
    a <- index args i ;;
    trigger r a) ;;
  reverse_cell (cl_decoder_units f) ;;
  decoder_units <- get_cell (cl_decoder_units f) ;;
  u0 <- index decoder_units 0 ;;
  or_arg <- activate u0 ;;
  decoder_loop (cl_vec_length f) args decoder_units or_arg.

(** A sequence of invocations of one closure, with the results in order. *)
Fixpoint calls (f : closure) (argss : list (list Z)) : Py (list Z) :=
  match argss with
  | [] => ret []
  | args :: argss' =>
      r <- decoder f args ;;
      rs <- calls f argss' ;;
      ret (r :: rs)
  end.

(** [f = Decoder(vecs).decode()] followed by the invocations [argss]. *)
Definition session (vecs : list (list Z)) (argss : list (list Z)) : Py (list Z) :=
  d <- Decoder_init vecs ;;
  f <- decode d ;;
  calls f argss.

(** ** Vocabulary of the properties *)

(** A bit is the integer 0 or the integer 1. *)
Definition bit (x : Z) : Prop := x = 0 \/ x = 1.

Definition bits (v : list Z) : Prop := Forall bit v.

(** [os] are the objects the references [refs] point to in the store. *)
Definition held (s : store) (refs : list ref) (os : list MPInput) : Prop :=
  Forall2 (fun r o => objs s !! r = Some o) refs os.

(** Some inhibitory input has the value 1. *)
Definition inhibited (os : list MPInput) : Prop :=
  Exists (fun o => excitatory o = false /\ value o = 1) os.

(** The sum of the values of the excitatory inputs. *)
Definition excitation (os : list MPInput) : Z :=
  sum (map value (filter (fun o => excitatory o = true) os)).

(** An input that makes [activate] return 0 at once. *)
Definition blocking (o : MPInput) : bool :=
  negb (excitatory o) && negb (value o =? 0).

(** What [activate_loop] returns, from the objects it reads. *)
Definition activation (thr excitations : Z) (os : list MPInput) : Z :=
  if existsb blocking os then 0
  else if excitations + excitation os >=? thr then 1 else 0.

(** The objects of the store after [inputs[i].trigger(args[i])] for the
    positions the two lists share, in order. *)
Fixpoint store_args (refs : list ref) (args : list Z) (h : list MPInput)
  : list MPInput :=
  match refs, args with
  | r :: refs', a :: args' =>
      store_args refs' args' (alter (fun o => mkMPInput (excitatory o) a) r h)
  | _, _ => h
  end.

(** [x] dominates [y]: every position that is 1 in [y] is 1 in [x]. *)
Definition dominates (x y : list Z) : Prop :=
  forall i, y !! i = Some 1 -> x !! i = Some 1.

(** The input objects a decoder unit for [v] holds once [a] is presented. *)
Definition presented (v a : list Z) : list MPInput :=
  zip_with (fun vi ai => mkMPInput (vi =? 1) ai) v a.

(** The polarity of the object [r] points to, if there is one. *)
Definition polarity (s : store) (r : ref) : option bool :=
  excitatory <$> objs s !! r.

(** [u] is a decoder unit for the vector [v] in the store [s]: its
    threshold is the sum of [v], its inputs are distinct objects and the
    input at position [i] is excitatory exactly when [v[i] == 1]. *)
Definition unit_for (s : store) (u : MPNeuron) (v : list Z) : Prop :=
  threshold u = sum v /\
  NoDup (inputs u) /\
  Forall2 (fun r vi => polarity s r = Some (vi =? 1)) (inputs u) v.

(** Every object of [s] is still there in [s'], with the polarity it had. *)
Definition polarity_kept (s s' : store) : Prop :=
  forall r b, polarity s r = Some b -> polarity s' r = Some b.

(** Two lists of objects of the same polarities, the values of the first
    at most those of the second. *)
Definition below (hy hx : list MPInput) : Prop :=
  Forall2 (fun oy ox => excitatory oy = excitatory ox /\ value oy <= value ox)
          hy hx.

(** Presenting [args] to the neuron [u], then activating it. *)
Definition present_and_activate (u : MPNeuron) (args : list Z) : Py Z :=
  trigger_inputs (length (inputs u)) (inputs u) args ;;
  activate u.

(** All the input references of a list of units, in order. *)
Definition all_inputs (us : list MPNeuron) : list ref := flat_map inputs us.

(** The inputs of each unit hold the tuple [p], unit by unit. *)
Definition loaded (s : store) (us : list MPNeuron) (vs : list (list Z))
    (p : list Z) : Prop :=
  Forall2 (fun u v => held s (inputs u) (presented v p)) us vs.

(** What the invocations [argss] of one closure return, in order.
    [flipped] tells whether [decoder_units] is currently in reversed order
    and [prev] is the tuple the inputs of the units hold (the previous
    arguments, or zeros before the first invocation). When the list is
    reversed and there are at least two units, the first-built unit is
    activated on [prev] before the loop and its activation is OR-ed into
    the result. *)
Fixpoint expected (vecs : list (list Z)) (flipped : bool) (prev : list Z)
    (argss : list (list Z)) : list Z :=
  match argss with
  | [] => []
  | a :: rest =>
      (if decide (a ∈ vecs \/
                  (flipped = true /\ (2 <= length vecs)%nat /\ head vecs = Some prev))
       then 1 else 0)
      :: expected vecs (negb flipped) a rest
  end.

(** The state of a closure between two invocations: its cell holds the
    units [us], reversed or not, the units are decoder units for [vecs] and
    their inputs hold the tuple [prev]. *)
Definition ready (c : nat) (us : list MPNeuron) (vecs : list (list Z))
    (flipped : bool) (prev : list Z) (s : store) : Prop :=
  cells s !! c = Some (if flipped then reverse us else us) /\
  Forall2 (unit_for s) us vecs /\
  loaded s us vecs prev.

(** [s'] keeps every object of [s], with its polarity, and differs from
    [s] on the objects [refs] at most; the lists of units are the same. *)
Definition extends_but (refs : list ref) (s s' : store) : Prop :=
  (length (objs s) <= length (objs s'))%nat /\
  (forall r, (r < length (objs s))%nat -> polarity s' r = polarity s r) /\
  (forall r, r ∉ refs -> (r < length (objs s))%nat ->
             objs s' !! r = objs s !! r).

Definition frame (refs : list ref) (s s' : store) : Prop :=
  extends_but refs s s' /\ cells s' = cells s.

(** Two closures used in turn: each entry of the schedule names the
    closure to invoke ([true] for [f], [false] for [g]) and the arguments. *)
Fixpoint calls2 (f g : closure) (sched : list (bool * list Z)) : Py (list Z) :=
  match sched with
  | [] => ret []
  | (first, args) :: sched' =>
      r <- decoder (if first then f else g) args ;;
      rs <- calls2 f g sched' ;;
      ret (r :: rs)
  end.

(** [f = Decoder(vecs1).decode(); g = Decoder(vecs2).decode()] followed by
    the invocations of the schedule. *)
Definition session2 (vecs1 vecs2 : list (list Z)) (sched : list (bool * list Z))
  : Py (list Z) :=
  d1 <- Decoder_init vecs1 ;;
  f <- decode d1 ;;
  d2 <- Decoder_init vecs2 ;;
  g <- decode d2 ;;
  calls2 f g sched.

(** The arguments a schedule gives to one of the two closures, and the
    results that closure returned, in order. *)
Fixpoint args_of (b : bool) (sched : list (bool * list Z)) : list (list Z) :=
  match sched with
  | [] => []
  | (b', a) :: sched' =>
      if Bool.eqb b' b then a :: args_of b sched' else args_of b sched'
  end.

Fixpoint results_of (b : bool) (sched : list (bool * list Z)) (rs : list Z)
  : list Z :=
  match sched, rs with
  | (b', _) :: sched', r :: rs' =>
      if Bool.eqb b' b then r :: results_of b sched' rs'
      else results_of b sched' rs'
  | _, _ => []
  end.

(** * Properties *)

(** ** Running the monad *)

Lemma bind_run {A B} (m : Py A) (k : A -> Py B) s x s' :
  m s = (inr x, s') -> bind m k s = k x s'.
Proof. intros E. unfold bind. rewrite E. reflexivity. Qed.

Lemma index_run {A} (l : list A) i x s :
  l !! i = Some x -> index l i s = (inr x, s).
Proof. intros E. unfold index. rewrite E. reflexivity. Qed.

Lemma read_run r o s :
  objs s !! r = Some o -> read r s = (inr o, s).
Proof. intros E. unfold read. rewrite E. reflexivity. Qed.

Lemma trigger_run r o v s :
  objs s !! r = Some o ->
  trigger r v s
  = (inr tt, mkStore (<[r := mkMPInput (excitatory o) v]> (objs s)) (cells s)).
Proof. intros E. unfold trigger. rewrite E. reflexivity. Qed.

Lemma MPInput_new_run e s :
  MPInput_new e s
  = (inr (length (objs s)), mkStore (objs s ++ [mkMPInput e 0]) (cells s)).
Proof. reflexivity. Qed.

Lemma MPInput_new_if (b : bool) s :
  (if b then MPInput_new true else MPInput_new false) s
  = (inr (length (objs s)), mkStore (objs s ++ [mkMPInput b 0]) (cells s)).
Proof. destruct b; reflexivity. Qed.

Lemma for_each_ext {A} (l : list A) (f g : A -> Py unit) :
  (forall x s, f x s = g x s) -> forall s, for_each l f s = for_each l g s.
Proof.
  intros Hfg. induction l as [|x l IH]; intros s; [reflexivity |].
  cbn [for_each]. unfold bind. rewrite Hfg.
  destruct (g x s) as [[e | []] s']; [reflexivity | apply IH].
Qed.

(** One statement of a [bind] chain, run by the equation [tac] proves. *)
Ltac py_step tac :=
  erewrite bind_run; [| solve [tac]]; cbn [objs cells excitatory value].

(** Facts about explicit lists: every element is a bit, the length is the
    one given. *)
Ltac closed_list :=
  repeat match goal with
         | |- Forall _ [] => apply List.Forall_nil
         | |- Forall _ (_ :: _) => apply List.Forall_cons
         | |- bits _ => unfold bits
         | |- _ /\ _ => split
         | |- bit _ => unfold bit; cbn; lia
         | |- length _ = _ => reflexivity
         end.

(** ** The notebook's own session: the outputs its cells record *)

Example notebook_session :
  result (session [[0;1;0]; [0;1;1]; [1;0;1]]
            [[0;1;0]; [0;1;1]; [1;0;1]; [0;0;0]; [0;0;1]; [1;0;0]; [1;1;0]; [1;1;1]])
         empty_store
  = inr [1; 1; 1; 0; 0; 0; 0; 0].
Proof. vm_compute. reflexivity. Qed.

Example notebook_gates :
  result (NOT 0) empty_store = inr 1 /\ result (NOT 1) empty_store = inr 0 /\
  result (AND 0 1) empty_store = inr 0 /\ result (AND 1 1) empty_store = inr 1 /\
  result (OR 0 0) empty_store = inr 0 /\ result (OR 1 0) empty_store = inr 1.
Proof. vm_compute. repeat split. Qed.

(** ** The gates, run on any store *)

(** The second of two objects appended to a list. *)
Lemma lookup_app_second {A} (h : list A) (x y : A) :
  (h ++ [x; y]) !! (length h + 1)%nat = Some y.
Proof.
  rewrite lookup_app_r by lia.
  replace (length h + 1 - length h)%nat with 1%nat by lia. reflexivity.
Qed.

Lemma insert_app_second {A} (h : list A) (x y z : A) :
  <[(length h + 1)%nat := z]> (h ++ [x; y]) = h ++ [x; z].
Proof.
  rewrite insert_app_r_alt by lia.
  replace (length h + 1 - length h)%nat with 1%nat by lia. reflexivity.
Qed.

(** The common body of [AND] and [OR]: what it returns and the two fresh
    inputs it leaves in the store. *)
Lemma two_inputs_run thr x1 x2 s :
  (a <- MPInput_new true ;;
   b <- MPInput_new true ;;
   let inputs := [a; b] in
   let gate := mkMPNeuron thr inputs in
   i0 <- index inputs 0 ;;
   trigger i0 x1 ;;
   i1 <- index inputs 1 ;;
   trigger i1 x2 ;;
   activate gate) s
  = (inr (if x1 + x2 >=? thr then 1 else 0),
     mkStore (objs s ++ [mkMPInput true x1; mkMPInput true x2]) (cells s)).
Proof.
  destruct s as [h c].
  py_step ltac:(apply MPInput_new_run).
  py_step ltac:(apply MPInput_new_run).
  cbv zeta. rewrite length_app, <- app_assoc. cbn [length app].
  py_step ltac:(apply index_run; reflexivity).
  py_step ltac:(apply trigger_run; apply list_lookup_middle; reflexivity).
  py_step ltac:(apply index_run; reflexivity).
  rewrite insert_app_r_alt, Nat.sub_diag by lia. cbn [insert list_insert].
  py_step ltac:(apply trigger_run; apply lookup_app_second).
  rewrite insert_app_second.
  unfold activate. cbn [threshold inputs activate_loop].
  py_step ltac:(apply read_run; apply list_lookup_middle; reflexivity).
  py_step ltac:(apply read_run; apply lookup_app_second).
  unfold ret. replace (0 + x1 + x2) with (x1 + x2) by lia. reflexivity.
Qed.

Lemma AND_run x1 x2 s :
  AND x1 x2 s
  = (inr (if x1 + x2 >=? 2 then 1 else 0),
     mkStore (objs s ++ [mkMPInput true x1; mkMPInput true x2]) (cells s)).
Proof. apply two_inputs_run. Qed.

Lemma OR_run x1 x2 s :
  OR x1 x2 s
  = (inr (if x1 + x2 >=? 1 then 1 else 0),
     mkStore (objs s ++ [mkMPInput true x1; mkMPInput true x2]) (cells s)).
Proof. apply two_inputs_run. Qed.

Lemma NOT_run x s :
  NOT x s
  = (inr (if x =? 0 then 1 else 0),
     mkStore (objs s ++ [mkMPInput false x]) (cells s)).
Proof.
  destruct s as [h c]. unfold NOT.
  py_step ltac:(apply MPInput_new_run).
  cbv zeta.
  py_step ltac:(apply index_run; reflexivity).
  py_step ltac:(apply trigger_run; apply list_lookup_middle; reflexivity).
  rewrite insert_app_r_alt, Nat.sub_diag by lia. cbn [insert list_insert].
  unfold activate. cbn [threshold inputs activate_loop].
  py_step ltac:(apply read_run; apply list_lookup_middle; reflexivity).
  unfold ret. destruct (x =? 0); reflexivity.
Qed.

(** C8. On bits the gates compute their truth tables, on any store:
    [AND(x1,x2) == 1] iff [x1 == 1 and x2 == 1], [OR(x1,x2) == 1] iff
    [x1 == 1 or x2 == 1], and [NOT(x) == 1 - x]; [AND] and [OR] return a
    bit, so they return 0 otherwise. *)
Theorem gates_truth_tables (s : store) (x1 x2 x : Z) :
  bit x1 -> bit x2 -> bit x ->
  (exists r, result (AND x1 x2) s = inr r /\ bit r /\ (r = 1 <-> x1 = 1 /\ x2 = 1)) /\
  (exists r, result (OR x1 x2) s = inr r /\ bit r /\ (r = 1 <-> x1 = 1 \/ x2 = 1)) /\
  result (NOT x) s = inr (1 - x).
Proof.
  intros B1 B2 B. unfold result.
  rewrite AND_run, OR_run, NOT_run. simpl.
  destruct B1 as [-> | ->], B2 as [-> | ->], B as [-> | ->]; simpl;
    (split; [eexists; split; [reflexivity|]
            | split; [eexists; split; [reflexivity|] | reflexivity]]);
    unfold bit; lia.
Qed.

Lemma gates_truth_tables_witness :
  (exists r, result (AND 1 1) empty_store = inr r /\ bit r /\ (r = 1 <-> 1 = 1 /\ 1 = 1)) /\
  (exists r, result (OR 1 1) empty_store = inr r /\ bit r /\ (r = 1 <-> 1 = 1 \/ 1 = 1)) /\
  result (NOT 0) empty_store = inr (1 - 0).
Proof.
  apply (gates_truth_tables empty_store 1 1 0);
    unfold bit; [right | right | left]; reflexivity.
Defined.

(** ** Construction of a Decoder *)

(** C6. [Decoder([])] raises at construction time, on any store: the
    subscript [self.vectors[0]] raises [IndexError], the store is left as it
    was and no Decoder object is returned. *)
Theorem Decoder_empty_raises (s : store) :
  Decoder_init [] s = (inl IndexError, s) /\
  forall d, result (Decoder_init []) s <> inr d.
Proof. split; [reflexivity | intros d; discriminate]. Qed.

(** C3. [Decoder([[0,1],[1,0,0]])] does not raise: the [assert] is given a
    generator object, which is true, and the constructor returns a Decoder
    whose [vec_length] is 2. *)
Theorem Decoder_mismatched_lengths_accepted (s : store) :
  Decoder_init [[0; 1]; [1; 0; 0]] s
  = (inr (mkDecoder [[0; 1]; [1; 0; 0]] 2), s).
Proof. reflexivity. Qed.

(** The constructor accepts every non-empty list of vectors. *)
Lemma Decoder_init_run v0 vecs s :
  Decoder_init (v0 :: vecs) s = (inr (mkDecoder (v0 :: vecs) (length v0)), s).
Proof. reflexivity. Qed.

(** ** The activation rule *)

Lemma foldl_add_shift (a : Z) (l : list Z) :
  foldl Z.add a l = a + foldl Z.add 0 l.
Proof.
  revert a. induction l as [|x l IH]; intros a; simpl; [lia |].
  rewrite (IH (a + x)), (IH (0 + x)). lia.
Qed.

Lemma sum_nil : sum [] = 0.
Proof. reflexivity. Qed.

Lemma sum_cons (x : Z) (l : list Z) : sum (x :: l) = x + sum l.
Proof. unfold sum. simpl. rewrite foldl_add_shift. lia. Qed.

Lemma excitation_cons o os :
  excitation (o :: os)
  = (if excitatory o then value o else 0) + excitation os.
Proof.
  unfold excitation. rewrite filter_cons.
  destruct (excitatory o) eqn:E.
  - rewrite decide_True by reflexivity. simpl. apply sum_cons.
  - rewrite decide_False by discriminate. lia.
Qed.

Lemma activation_cons thr e o os :
  activation thr e (o :: os)
  = if excitatory o then activation thr (e + value o) os
    else if negb (value o =? 0) then 0
    else activation thr e os.
Proof.
  unfold activation. cbn [existsb]. unfold blocking at 1.
  rewrite excitation_cons.
  destruct (excitatory o); cbn [negb andb orb].
  - rewrite Z.add_assoc. reflexivity.
  - destruct (value o =? 0); cbn [negb orb]; [rewrite Z.add_0_l|]; reflexivity.
Qed.

(** [activate] reads the store and leaves it as it was. *)
Lemma activate_loop_run s refs os :
  held s refs os ->
  forall thr e, activate_loop thr e refs s = (inr (activation thr e os), s).
Proof.
  induction 1 as [|r o refs os Hr _ IH]; intros thr e.
  - unfold activation, excitation. cbn. rewrite Z.add_0_r. reflexivity.
  - cbn [activate_loop]. py_step ltac:(apply read_run; exact Hr).
    rewrite activation_cons.
    destruct (excitatory o); [apply IH |].
    destruct (negb (value o =? 0)); [reflexivity | apply IH].
Qed.

Lemma activate_run s u os :
  held s (inputs u) os ->
  activate u s = (inr (activation (threshold u) 0 os), s).
Proof. intros H. apply activate_loop_run. exact H. Qed.

Lemma existsb_blocking_perm os os' :
  os ≡ₚ os' -> existsb blocking os = existsb blocking os'.
Proof.
  induction 1 as [|o os os' _ IH|o1 o2 os|os1 os2 os3 _ IH1 _ IH2]; cbn [existsb].
  - reflexivity.
  - rewrite IH. reflexivity.
  - destruct (blocking o1), (blocking o2); reflexivity.
  - congruence.
Qed.

Lemma excitation_perm os os' :
  os ≡ₚ os' -> excitation os = excitation os'.
Proof.
  induction 1 as [|o os os' _ IH|o1 o2 os|os1 os2 os3 _ IH1 _ IH2].
  - reflexivity.
  - rewrite !excitation_cons, IH. reflexivity.
  - rewrite !excitation_cons. lia.
  - congruence.
Qed.

Lemma activation_perm thr e os os' :
  os ≡ₚ os' -> activation thr e os = activation thr e os'.
Proof.
  intros H. unfold activation.
  rewrite (existsb_blocking_perm _ _ H), (excitation_perm _ _ H). reflexivity.
Qed.

(** Reordering the references reorders the objects they point to. *)
Lemma held_perm s refs refs' :
  refs ≡ₚ refs' ->
  forall os, held s refs os -> exists os', held s refs' os' /\ os ≡ₚ os'.
Proof.
  unfold held.
  induction 1 as [|r refs refs' _ IH|r1 r2 refs|l1 l2 l3 _ IH1 _ IH2]; intros os H.
  - exists os. split; [exact H | reflexivity].
  - inversion H as [|? o ? os0 Hr Hrest]; subst.
    destruct (IH _ Hrest) as (os' & H' & P).
    exists (o :: os'). split; [constructor; assumption | constructor; exact P].
  - inversion H as [|? o1 ? os1 Hr1 H1]; subst.
    inversion H1 as [|? o2 ? os2 Hr2 H2]; subst.
    exists (o2 :: o1 :: os2). split; [repeat constructor; assumption | constructor].
  - destruct (IH1 _ H) as (os2 & H2 & P2).
    destruct (IH2 _ H2) as (os3 & H3 & P3).
    exists os3. split; [exact H3 | etrans; eassumption].
Qed.

(** On inputs whose values are bits, an input blocks exactly when it is
    inhibitory with value 1. *)
Lemma existsb_blocking_inhibited os :
  Forall (fun o => bit (value o)) os ->
  existsb blocking os = true <-> inhibited os.
Proof.
  unfold inhibited. induction 1 as [|o os Hb _ IH]; cbn [existsb].
  - split; [discriminate | intros H; inversion H].
  - rewrite orb_true_iff, IH, Exists_cons. unfold blocking.
    destruct (excitatory o), Hb as [-> | ->]; cbn; intuition congruence.
Qed.

(** C2. For a neuron whose inputs hold bits, [activate] returns 0 if some
    inhibitory input has value 1, and otherwise returns 1 exactly when the
    sum of the values of the excitatory inputs is at least the threshold
    (and 0 when it is not); it leaves the store as it was, and a neuron with
    the same threshold and the same inputs in another order returns the
    same. *)
Theorem activate_rule (s : store) (u : MPNeuron) (os : list MPInput) :
  held s (inputs u) os ->
  Forall (fun o => bit (value o)) os ->
  (inhibited os -> activate u s = (inr 0, s)) /\
  (~ inhibited os ->
   activate u s = (inr (if excitation os >=? threshold u then 1 else 0), s)) /\
  (forall u', threshold u' = threshold u -> inputs u' ≡ₚ inputs u ->
   activate u' s = activate u s).
Proof.
  intros H B. rewrite (activate_run _ _ _ H). unfold activation.
  pose proof (existsb_blocking_inhibited os B) as I.
  split; [| split].
  - intros Hin. apply I in Hin. rewrite Hin. reflexivity.
  - intros Hn. destruct (existsb blocking os); [exfalso; apply Hn, I; reflexivity |].
    rewrite Z.add_0_l. reflexivity.
  - intros u' Et P. symmetry in P.
    destruct (held_perm _ _ _ P _ H) as (os' & H' & P').
    rewrite (activate_run _ _ _ H'), Et.
    fold (activation (threshold u) 0 os'). fold (activation (threshold u) 0 os).
    rewrite (activation_perm _ _ _ _ P'). reflexivity.
Qed.

Lemma activate_rule_witness :
  activate (mkMPNeuron 2 [0; 1; 2]%nat)
    (mkStore [mkMPInput true 1; mkMPInput false 0; mkMPInput true 1] [])
  = (inr 1, mkStore [mkMPInput true 1; mkMPInput false 0; mkMPInput true 1] []) /\
  activate (mkMPNeuron 2 [2; 0; 1]%nat)
    (mkStore [mkMPInput true 1; mkMPInput false 0; mkMPInput true 1] [])
  = activate (mkMPNeuron 2 [0; 1; 2]%nat)
      (mkStore [mkMPInput true 1; mkMPInput false 0; mkMPInput true 1] []).
Proof.
  destruct (activate_rule
              (mkStore [mkMPInput true 1; mkMPInput false 0; mkMPInput true 1] [])
              (mkMPNeuron 2 [0; 1; 2]%nat)
              [mkMPInput true 1; mkMPInput false 0; mkMPInput true 1])
    as (_ & Hfire & Hperm).
  - repeat constructor.
  - closed_list.
  - split.
    + rewrite Hfire; [reflexivity |].
      intros Hin. unfold inhibited in Hin. rewrite !Exists_cons, Exists_nil in Hin.
      cbn in Hin. intuition discriminate.
    + apply Hperm; [reflexivity |].
      cbn. apply (Permutation_cons_append [0; 1]%nat 2%nat).
Defined.

(** ** Presenting an argument tuple to the inputs of a neuron *)

Lemma trigger_alter r v s :
  (r < length (objs s))%nat ->
  trigger r v s
  = (inr tt,
     mkStore (alter (fun o => mkMPInput (excitatory o) v) r (objs s)) (cells s)).
Proof.
  intros Hr. destruct (lookup_lt_is_Some_2 _ _ Hr) as [o Ho].
  rewrite (trigger_run _ _ _ _ Ho). do 2 f_equal.
  apply list_eq. intros j.
  rewrite list_lookup_insert, list_lookup_alter.
  repeat case_decide; subst; try reflexivity.
  - rewrite Ho. reflexivity.
  - tauto.
  - exfalso. tauto.
Qed.

Lemma length_store_args refs args h :
  length (store_args refs args h) = length h.
Proof.
  revert args h. induction refs as [|r refs IH]; intros [|a args] h; cbn; try reflexivity.
  rewrite IH. apply length_alter.
Qed.

(** The loop of [trigger_inputs] from position [length pre_r] on. *)
Lemma trigger_from_run rs :
  forall xs pre_r pre_a s,
    length pre_r = length pre_a ->
    length rs = length xs ->
    Forall (fun r => (r < length (objs s))%nat) rs ->
    for_each (seq (length pre_r) (length rs))
      (fun i => r <- index (pre_r ++ rs) i ;;
                a <- index (pre_a ++ xs) i ;;
                trigger r a) s
    = (inr tt, mkStore (store_args rs xs (objs s)) (cells s)).
Proof.
  induction rs as [|r rs IH]; intros [|x xs] pre_r pre_a s Hpre Hlen Hv;
    try discriminate Hlen.
  - destruct s. reflexivity.
  - inversion Hv as [|? ? Hr Hrs]; subst.
    cbn [length seq for_each].
    erewrite bind_run.
    2:{ py_step ltac:(apply index_run; apply list_lookup_middle; reflexivity).
        py_step ltac:(apply index_run; apply list_lookup_middle; exact Hpre).
        apply trigger_alter. exact Hr. }
    replace (S (length pre_r)) with (length (pre_r ++ [r]))
      by (rewrite length_app; cbn; lia).
    replace (pre_r ++ r :: rs) with ((pre_r ++ [r]) ++ rs)
      by (rewrite <- app_assoc; reflexivity).
    replace (pre_a ++ x :: xs) with ((pre_a ++ [x]) ++ xs)
      by (rewrite <- app_assoc; reflexivity).
    rewrite IH.
    + reflexivity.
    + rewrite !length_app. cbn. lia.
    + cbn in Hlen. lia.
    + cbn [objs]. rewrite length_alter. exact Hrs.
Qed.

Lemma trigger_inputs_run refs args s :
  length refs = length args ->
  Forall (fun r => (r < length (objs s))%nat) refs ->
  trigger_inputs (length refs) refs args s
  = (inr tt, mkStore (store_args refs args (objs s)) (cells s)).
Proof.
  intros Hlen Hv. apply (trigger_from_run refs args [] [] s); auto.
Qed.

(** [trigger] changes values, never polarities. *)
Lemma store_args_polarity refs args h r :
  excitatory <$> store_args refs args h !! r = excitatory <$> h !! r.
Proof.
  revert args h. induction refs as [|r0 refs IH]; intros [|a args] h; cbn; try reflexivity.
  rewrite IH, list_lookup_alter.
  case_decide; [subst r0 | reflexivity].
  destruct (h !! r); reflexivity.
Qed.

Lemma store_args_notin refs args h r :
  r ∉ refs -> store_args refs args h !! r = h !! r.
Proof.
  revert args h. induction refs as [|r0 refs IH]; intros [|a args] h Hn; cbn; try reflexivity.
  apply not_elem_of_cons in Hn as [Hne Hn].
  rewrite IH by exact Hn. apply list_lookup_alter_ne. congruence.
Qed.

(** Larger arguments leave larger values, whatever the references are. *)
Lemma store_args_below refs :
  forall y x hy hx,
    Forall2 Z.le y x -> below hy hx ->
    below (store_args refs y hy) (store_args refs x hx).
Proof.
  induction refs as [|r refs IH]; intros y x hy hx Hyx Hb; [destruct y, x; exact Hb |].
  destruct Hyx as [|yi xi y x Hle Hyx]; [exact Hb |].
  cbn [store_args]. apply IH; [exact Hyx |].
  apply Forall2_alter; [exact Hb |].
  intros oy ox _ _ [Hp _]. cbn. split; assumption.
Qed.

Lemma below_refl h : below h h.
Proof. apply Forall_Forall2_diag, Forall_forall. intros; split; [reflexivity | lia]. Qed.

Lemma dominates_le x y :
  length x = length y -> bits x -> bits y -> dominates x y -> Forall2 Z.le y x.
Proof.
  intros Hlen Bx By D. apply Forall2_same_length_lookup_2; [symmetry; exact Hlen |].
  intros i yi xi Hy Hx.
  pose proof (Forall_lookup_1 _ _ _ _ Bx Hx) as [-> | ->];
  pose proof (Forall_lookup_1 _ _ _ _ By Hy) as [-> | ->]; try lia.
  specialize (D i Hy). congruence.
Qed.

(** The objects valid references point to. *)
Lemma held_exists s refs :
  Forall (fun r => (r < length (objs s))%nat) refs -> exists os, held s refs os.
Proof.
  unfold held. induction 1 as [|r refs Hr _ [os IH]].
  - exists []. constructor.
  - destruct (lookup_lt_is_Some_2 _ _ Hr) as [o Ho].
    exists (o :: os). constructor; assumption.
Qed.

Lemma held_below sy sx refs osy osx :
  below (objs sy) (objs sx) ->
  held sy refs osy -> held sx refs osx -> below osy osx.
Proof.
  intros Hb Hy. revert osx. induction Hy as [|r oy refs osy Hr _ IH]; intros osx Hx.
  - inversion Hx. constructor.
  - inversion Hx as [|? ox ? osx' Hrx Hx']; subst.
    constructor; [| apply IH; exact Hx'].
    exact (Forall2_lookup_lr _ _ _ _ _ _ Hb Hr Hrx).
Qed.

(** Without inhibitory inputs the activation is monotone in the values. *)
Lemma activation_below thr osy osx :
  below osy osx ->
  Forall (fun o => excitatory o = true) osy ->
  activation thr 0 osy <= activation thr 0 osx.
Proof.
  intros Hb Hall.
  assert (G : existsb blocking osy = false /\ existsb blocking osx = false /\
              excitation osy <= excitation osx).
  { induction Hb as [|oy ox osy osx [Hp Hv] _ IH]; [repeat split; reflexivity |].
    inversion Hall as [|? ? Hoy Hall']; subst.
    destruct (IH Hall') as (Ey & Ex & Hle).
    cbn [existsb]. rewrite Ey, Ex, !excitation_cons. unfold blocking.
    rewrite <- Hp, Hoy. cbn. repeat split; lia. }
  destruct G as (Ey & Ex & Hle). unfold activation. rewrite Ey, Ex.
  destruct (0 + excitation osy >=? thr) eqn:Cy,
           (0 + excitation osx >=? thr) eqn:Cx; lia.
Qed.

(** C9. For a neuron whose inputs are all excitatory and bit-vectors [x]
    and [y] with one bit per input, [x] dominating [y]: presenting [x] and
    activating returns at least what presenting [y] and activating
    returns. *)
Theorem excitatory_monotone (s : store) (u : MPNeuron) (x y : list Z) :
  Forall (fun r => polarity s r = Some true) (inputs u) ->
  bits x -> bits y ->
  length x = length (inputs u) -> length y = length (inputs u) ->
  dominates x y ->
  exists rx ry,
    result (present_and_activate u x) s = inr rx /\
    result (present_and_activate u y) s = inr ry /\
    ry <= rx.
Proof.
  intros Hall Bx By Lx Ly D.
  assert (Hv : Forall (fun r => (r < length (objs s))%nat) (inputs u)).
  { eapply Forall_impl; [exact Hall |]. intros r Hr. cbn in Hr.
    apply lookup_lt_is_Some. unfold polarity in Hr.
    destruct (objs s !! r); [eexists; reflexivity | discriminate Hr]. }
  set (sx := mkStore (store_args (inputs u) x (objs s)) (cells s)).
  set (sy := mkStore (store_args (inputs u) y (objs s)) (cells s)).
  assert (Tx : trigger_inputs (length (inputs u)) (inputs u) x s = (inr tt, sx))
    by (apply trigger_inputs_run; [symmetry; exact Lx | exact Hv]).
  assert (Ty : trigger_inputs (length (inputs u)) (inputs u) y s = (inr tt, sy))
    by (apply trigger_inputs_run; [symmetry; exact Ly | exact Hv]).
  destruct (held_exists sx (inputs u)) as [osx Hx].
  { cbn. rewrite length_store_args. exact Hv. }
  destruct (held_exists sy (inputs u)) as [osy Hy].
  { cbn. rewrite length_store_args. exact Hv. }
  exists (activation (threshold u) 0 osx), (activation (threshold u) 0 osy).
  unfold result, present_and_activate.
  rewrite (bind_run _ _ _ _ _ Tx), (bind_run _ _ _ _ _ Ty).
  rewrite (activate_run _ _ _ Hx), (activate_run _ _ _ Hy).
  repeat split.
  apply activation_below.
  - apply (held_below sy sx (inputs u)); [| exact Hy | exact Hx].
    apply store_args_below; [| apply below_refl].
    apply dominates_le; [congruence | assumption ..].
  - apply Forall_lookup_2. intros i o Ho.
    destruct (Forall2_lookup_r _ _ _ _ _ Hy Ho) as (r & Hr & Hro).
    pose proof (Forall_lookup_1 _ _ _ _ Hall Hr) as Hp.
    pose proof (store_args_polarity (inputs u) y (objs s) r) as E.
    unfold polarity in Hp. cbn in Hro. rewrite Hro, Hp in E.
    cbn in E. congruence.
Qed.

Lemma excitatory_monotone_witness :
  exists rx ry,
    result (present_and_activate (mkMPNeuron 2 [0; 1; 2]%nat) [1; 1; 0])
      (mkStore [mkMPInput true 0; mkMPInput true 0; mkMPInput true 0] []) = inr rx /\
    result (present_and_activate (mkMPNeuron 2 [0; 1; 2]%nat) [0; 1; 0])
      (mkStore [mkMPInput true 0; mkMPInput true 0; mkMPInput true 0] []) = inr ry /\
    ry <= rx.
Proof.
  apply (excitatory_monotone
           (mkStore [mkMPInput true 0; mkMPInput true 0; mkMPInput true 0] [])
           (mkMPNeuron 2 [0; 1; 2]%nat) [1; 1; 0] [0; 1; 0]).
  - repeat constructor.
  - closed_list.
  - closed_list.
  - reflexivity.
  - reflexivity.
  - intros [|[|[|i]]] H; cbn in H |- *; congruence.
Defined.

(** ** The decoder unit of a vector *)

(** When the excitation cannot reach the threshold any more. *)
Lemma activation_short thr v :
  forall a e,
    bits v -> bits a -> length a = length v ->
    e + sum v < thr ->
    activation thr e (presented v a) = 0.
Proof.
  induction v as [|vi v IH]; intros [|ai a] e Bv Ba Hlen Hlt; try discriminate Hlen.
  - unfold activation, excitation. cbn. rewrite sum_nil in Hlt.
    destruct (e + 0 >=? thr) eqn:C; lia.
  - inversion Bv as [|? ? Bvi Bv']; inversion Ba as [|? ? Bai Ba']; subst.
    cbn [presented zip_with]. rewrite activation_cons. cbn [excitatory value].
    rewrite sum_cons in Hlt. injection Hlen as Hlen.
    destruct Bvi as [-> | ->], Bai as [-> | ->]; cbn;
      try reflexivity; apply IH; auto; lia.
Qed.

(** The decoder unit of [v] fires on [a] exactly when [a] is [v]. *)
Lemma activation_presented v :
  forall a e,
    bits v -> bits a -> length a = length v ->
    activation (e + sum v) e (presented v a) = if decide (a = v) then 1 else 0.
Proof.
  induction v as [|vi v IH]; intros [|ai a] e Bv Ba Hlen; try discriminate Hlen.
  - unfold activation, excitation. cbn.
    destruct (e + 0 >=? e + 0) eqn:C; [reflexivity | lia].
  - inversion Bv as [|? ? Bvi Bv']; inversion Ba as [|? ? Bai Ba']; subst.
    cbn [presented zip_with]. rewrite activation_cons. cbn [excitatory value].
    rewrite sum_cons. injection Hlen as Hlen.
    destruct Bvi as [-> | ->], Bai as [-> | ->]; cbn [Z.eqb negb].
    + rewrite Z.add_0_l. fold (presented v a). rewrite IH by assumption.
      repeat case_decide; simplify_eq; reflexivity || contradiction.
    + rewrite decide_False by discriminate. reflexivity.
    + fold (presented v a). rewrite activation_short by (auto; lia).
      rewrite decide_False by discriminate. reflexivity.
    + fold (presented v a).
      replace (e + (1 + sum v)) with ((e + 1) + sum v) by lia.
      rewrite IH by assumption. repeat case_decide; simplify_eq; reflexivity || contradiction.
Qed.

(** After the arguments are presented to distinct inputs of the right
    polarities, the inputs hold exactly the arguments. *)
Lemma store_args_presented refs v :
  Forall2 (fun r vi => True) refs v ->
  forall a h,
    NoDup refs -> length a = length v ->
    Forall2 (fun r vi => excitatory <$> h !! r = Some (vi =? 1)) refs v ->
    Forall2 (fun r o => store_args refs a h !! r = Some o) refs (presented v a).
Proof.
  induction 1 as [|r vi refs v _ _ IH]; intros [|ai a] h Hnd Hlen Hp;
    try discriminate Hlen; [constructor |].
  inversion Hnd as [|? ? Hnotin Hnd']; subst.
  inversion Hp as [|? ? ? ? Hr Hp']; subst.
  cbn [store_args presented zip_with]. constructor.
  - rewrite store_args_notin by exact Hnotin.
    rewrite list_lookup_alter_eq.
    destruct (h !! r) as [o|]; [| discriminate Hr].
    cbn in Hr |- *. congruence.
  - apply IH; [exact Hnd' | cbn in Hlen; lia |].
    eapply Forall2_impl; [exact Hp' |].
    intros r' vi' Hr'. cbn in Hr' |- *.
    rewrite list_lookup_alter. case_decide; [subst r' | exact Hr'].
    destruct (h !! r); [exact Hr' | discriminate Hr'].
Qed.

Lemma unit_for_valid s u v :
  unit_for s u v -> Forall (fun r => (r < length (objs s))%nat) (inputs u).
Proof.
  intros (_ & _ & Hp). apply Forall_lookup_2. intros i r Hr.
  destruct (Forall2_lookup_l _ _ _ _ _ Hp Hr) as (vi & _ & Hvi).
  apply lookup_lt_is_Some. unfold polarity in Hvi.
  destruct (objs s !! r); [eexists; reflexivity | discriminate Hvi].
Qed.

Lemma unit_for_length s u v : unit_for s u v -> length (inputs u) = length v.
Proof. intros (_ & _ & Hp). exact (Forall2_length _ _ _ Hp). Qed.

(** Presenting [a] to a decoder unit for [v]. *)
Lemma present_unit s u v a :
  unit_for s u v -> length a = length v ->
  let s' := mkStore (store_args (inputs u) a (objs s)) (cells s) in
  trigger_inputs (length v) (inputs u) a s = (inr tt, s') /\
  held s' (inputs u) (presented v a).
Proof.
  intros U Hlen s'. pose proof (unit_for_length _ _ _ U) as Hl.
  split.
  - rewrite <- Hl. apply trigger_inputs_run; [congruence |].
    exact (unit_for_valid _ _ _ U).
  - destruct U as (_ & Hnd & Hp). unfold held, s'. cbn [objs].
    apply store_args_presented; try assumption.
    eapply Forall2_impl; [exact Hp | auto].
Qed.

(** Activating a decoder unit for [v] whose inputs hold [a]. *)
Lemma activate_unit s u v a :
  threshold u = sum v -> held s (inputs u) (presented v a) ->
  bits v -> bits a -> length a = length v ->
  activate u s = (inr (if decide (a = v) then 1 else 0), s).
Proof.
  intros Ht H Bv Ba Hlen. rewrite (activate_run _ _ _ H), Ht.
  rewrite <- (activation_presented v a 0) by assumption.
  rewrite Z.add_0_l. reflexivity.
Qed.

(** The inner loop of [decode] from position [k] on. *)
Lemma build_inputs_run v m :
  forall k acc s,
    (k + m <= length v)%nat ->
    build_inputs v (seq k m) acc s
    = (inr (acc ++ seq (length (objs s)) m),
       mkStore (objs s ++ ((fun vi => mkMPInput (vi =? 1) 0) <$> take m (drop k v)))
               (cells s)).
Proof.
  induction m as [|m IH]; intros k acc s Hk.
  - cbn. rewrite !app_nil_r. destruct s. reflexivity.
  - destruct (lookup_lt_is_Some_2 v k) as [vi Hvi]; [lia |].
    cbn [seq build_inputs].
    py_step ltac:(apply index_run; exact Hvi).
    py_step ltac:(apply MPInput_new_if).
    rewrite IH by lia. cbn [objs cells].
    rewrite (drop_S _ _ _ Hvi). cbn [take fmap list_fmap].
    rewrite <- !app_assoc, length_app. cbn [length app].
    replace (length (objs s) + 1)%nat with (S (length (objs s))) by lia.
    reflexivity.
Qed.

Lemma decoder_unit_run v s :
  decoder_unit (length v) v s
  = (inr (mkMPNeuron (sum v) (seq (length (objs s)) (length v))),
     mkStore (objs s ++ ((fun vi => mkMPInput (vi =? 1) 0) <$> v)) (cells s)).
Proof.
  unfold decoder_unit, range.
  py_step ltac:(apply build_inputs_run; lia).
  rewrite drop_0, firstn_all. reflexivity.
Qed.

Lemma decoder_unit_unit_for v h c :
  unit_for (mkStore (h ++ ((fun vi => mkMPInput (vi =? 1) 0) <$> v)) c)
           (mkMPNeuron (sum v) (seq (length h) (length v))) v.
Proof.
  split; [reflexivity | split; [apply NoDup_seq |]].
  cbn [inputs]. apply Forall2_same_length_lookup_2; [apply length_seq |].
  intros i r vi Hr Hvi. apply lookup_seq in Hr as [-> Hi].
  unfold polarity. cbn [objs].
  rewrite lookup_app_r by lia.
  replace (length h + i - length h)%nat with i by lia.
  rewrite list_lookup_fmap, Hvi. reflexivity.
Qed.

(** C5. The decoder unit [decode] builds for a bit-vector [v], with its
    inputs triggered by a bit-vector [a] of the same length, activates to 1
    if [a] equals [v] and to 0 if it does not. *)
Theorem decoder_unit_fires_iff (s : store) (v a : list Z) :
  bits v -> bits a -> length a = length v ->
  result (u <- decoder_unit (length v) v ;;
          trigger_inputs (length v) (inputs u) a ;;
          activate u) s
  = inr (if decide (a = v) then 1 else 0).
Proof.
  intros Bv Ba Hlen. unfold result.
  rewrite (bind_run _ _ _ _ _ (decoder_unit_run v s)).
  pose proof (decoder_unit_unit_for v (objs s) (cells s)) as U.
  destruct (present_unit _ _ _ a U Hlen) as [T H].
  rewrite (bind_run _ _ _ _ _ T).
  rewrite (activate_unit _ _ v a); auto.
Qed.

Lemma decoder_unit_fires_iff_witness :
  result (u <- decoder_unit 3 [0; 1; 1] ;;
          trigger_inputs 3 (inputs u) [0; 1; 1] ;;
          activate u) empty_store = inr 1 /\
  result (u <- decoder_unit 3 [0; 1; 1] ;;
          trigger_inputs 3 (inputs u) [1; 1; 1] ;;
          activate u) empty_store = inr 0.
Proof.
  split.
  - apply (decoder_unit_fires_iff empty_store [0; 1; 1] [0; 1; 1]);
      [closed_list .. | reflexivity].
  - apply (decoder_unit_fires_iff empty_store [0; 1; 1] [1; 1; 1]);
      [closed_list .. | reflexivity].
Defined.

(** ** Polarities are stable *)

Lemma polarity_kept_refl s : polarity_kept s s.
Proof. intros r b H. exact H. Qed.

Lemma polarity_kept_trans s1 s2 s3 :
  polarity_kept s1 s2 -> polarity_kept s2 s3 -> polarity_kept s1 s3.
Proof. intros H12 H23 r b H. apply H23, H12, H. Qed.

Lemma polarity_kept_objs s s' : objs s' = objs s -> polarity_kept s s'.
Proof. intros E r b H. unfold polarity in *. rewrite E. exact H. Qed.

Lemma polarity_kept_store_args s refs args c :
  polarity_kept s (mkStore (store_args refs args (objs s)) c).
Proof.
  intros r b H. unfold polarity in *. cbn [objs].
  rewrite store_args_polarity. exact H.
Qed.

Lemma polarity_kept_app s l c : polarity_kept s (mkStore (objs s ++ l) c).
Proof.
  intros r b H. unfold polarity in *. cbn [objs].
  destruct (objs s !! r) as [o|] eqn:E; [| discriminate H].
  rewrite (lookup_app_l_Some _ _ _ _ E). exact H.
Qed.

Lemma unit_for_mono s s' u v :
  polarity_kept s s' -> unit_for s u v -> unit_for s' u v.
Proof.
  intros K (Ht & Hnd & Hp). split; [exact Ht | split; [exact Hnd |]].
  eapply Forall2_impl; [exact Hp |]. intros r vi H. apply K, H.
Qed.

Lemma units_for_mono s s' us vs :
  polarity_kept s s' -> Forall2 (unit_for s) us vs -> Forall2 (unit_for s') us vs.
Proof.
  intros K H. eapply Forall2_impl; [exact H |].
  intros u v U. exact (unit_for_mono _ _ _ _ K U).
Qed.

(** ** The loops of [decode] and of the closure *)

(** One round of the loop of the closure, on the accumulated [or_arg]. *)
Lemma or_step (or_arg : Z) (a v : list Z) (vs : list (list Z)) :
  bit or_arg ->
  (if or_arg + (if decide (a = v) then 1 else 0) >=? 1 then 1 else 0) = 1 \/ a ∈ vs
  <-> or_arg = 1 \/ a ∈ v :: vs.
Proof.
  intros Bo. rewrite elem_of_cons.
  destruct Bo as [-> | ->], (decide (a = v)) as [Eq | Ne]; cbn;
    intuition discriminate.
Qed.

(** Objects in a store that only grew are where they were. *)
Lemma held_app s refs os l c :
  held s refs os -> held (mkStore (objs s ++ l) c) refs os.
Proof.
  intros H. eapply Forall2_impl; [exact H |].
  intros r o Hr. cbn [objs]. apply lookup_app_l_Some. exact Hr.
Qed.

(** Objects the store did not change are still held. *)
Lemma held_transfer s s' refs os :
  held s refs os ->
  (forall r, r ∈ refs -> objs s' !! r = objs s !! r) ->
  held s' refs os.
Proof.
  unfold held. induction 1 as [|r o refs os Hr _ IH]; intros Hsame; constructor.
  - rewrite Hsame by (left; reflexivity). exact Hr.
  - apply IH. intros r' Hr'. apply Hsame. right. exact Hr'.
Qed.

(** A fresh decoder unit holds zeros. *)
Lemma decoder_unit_loaded v h c :
  held (mkStore (h ++ ((fun vi => mkMPInput (vi =? 1) 0) <$> v)) c)
       (seq (length h) (length v))
       (presented v (replicate (length v) 0)).
Proof.
  unfold held, presented. rewrite zip_with_replicate_r_eq by reflexivity.
  apply Forall2_same_length_lookup_2; [rewrite length_seq, length_fmap; reflexivity |].
  intros i r o Hr Ho. apply lookup_seq in Hr as [-> Hi]. cbn [objs].
  rewrite lookup_app_r by lia.
  replace (length h + i - length h)%nat with i by lia. exact Ho.
Qed.

(** The loop of [decode] over the vectors: it only adds objects to the
    store, one decoder unit per vector, in order, on consecutive fresh
    references, all holding zeros, and it leaves [inputs] bound to the
    inputs of the last unit. *)
Lemma decode_loop_run n vs :
  forall acc cur s,
    Forall (fun v => length v = n) vs ->
    exists us tail,
      let s' := mkStore (objs s ++ tail) (cells s) in
      decode_loop n vs acc cur s
      = (inr (acc ++ us,
              match last us with Some u => Some (inputs u) | None => cur end),
         s') /\
      Forall2 (unit_for s') us vs /\
      all_inputs us = seq (length (objs s)) (length tail) /\
      loaded s' us vs (replicate n 0).
Proof.
  induction vs as [|v vs IH]; intros acc cur s Hn.
  - exists [], []. cbn zeta. rewrite !app_nil_r. destruct s.
    repeat split; constructor.
  - apply Forall_cons in Hn as [Hv Hn']. subst n.
    cbn [decode_loop].
    rewrite (bind_run _ _ _ _ _ (decoder_unit_run v s)). cbv beta.
    set (f := fun vi => mkMPInput (vi =? 1) 0).
    set (gate := mkMPNeuron _ _). set (s1 := mkStore _ _).
    destruct (IH (acc ++ [gate]) (Some (inputs gate)) s1 Hn')
      as (us & tail & E & Hus & Hall & Hld).
    cbn zeta in E, Hus, Hld. cbn [objs cells s1] in E, Hus, Hall, Hld.
    rewrite <- app_assoc in E, Hus, Hld.
    exists (gate :: us), ((f <$> v) ++ tail). cbn zeta.
    set (s' := mkStore (objs s ++ (f <$> v) ++ tail) (cells s)) in *.
    assert (K : polarity_kept s1 s').
    { unfold s'. rewrite app_assoc. apply (polarity_kept_app s1). }
    rewrite E. repeat split.
    + rewrite <- app_assoc. cbn [app]. do 3 f_equal.
      destruct us as [|u us']; [reflexivity |].
      change (last (gate :: u :: us')) with (last (u :: us')).
      destruct (last (u :: us')) eqn:L; [reflexivity |].
      apply last_None in L. discriminate L.
    + constructor; [| exact Hus].
      apply (unit_for_mono s1); [exact K | apply decoder_unit_unit_for].
    + unfold all_inputs in *. cbn [flat_map inputs gate].
      rewrite Hall, length_app, length_app, length_fmap.
      rewrite (seq_app (length v) (length tail)). reflexivity.
    + constructor; [| exact Hld].
      unfold s'. rewrite app_assoc.
      apply (held_app (mkStore (objs s ++ (f <$> v)) (cells s))).
      apply decoder_unit_loaded.
Qed.

(** What [decode] returns: a closure over the decoder units of the
    vectors, [inputs] bound to the inputs of the last unit, and the list of
    units in a new cell. *)
Lemma decode_run n vecs s :
  Forall (fun v => length v = n) vecs ->
  exists us s1,
    decode (mkDecoder vecs n) s
    = (inr (mkClosure n
              (match last us with Some u => Some (inputs u) | None => None end)
              (length (cells s))),
       mkStore (objs s1) (cells s ++ [us])) /\
    Forall2 (unit_for s1) us vecs /\
    NoDup (all_inputs us) /\
    loaded s1 us vecs (replicate n 0).
Proof.
  intros Hn.
  destruct (decode_loop_run n vecs [] None s Hn) as (us & tail & E & Hus & Hall & Hld).
  cbn zeta in E, Hus, Hld.
  exists us, (mkStore (objs s ++ tail) (cells s)).
  split; [| split; [exact Hus | split; [rewrite Hall; apply NoDup_seq | exact Hld]]].
  unfold decode. cbn [vec_length vectors].
  rewrite (bind_run _ _ _ _ _ E). cbn [fst snd app].
  reflexivity.
Qed.

(** ** Every invocation of the closure *)

Lemma all_inputs_app us1 us2 :
  all_inputs (us1 ++ us2) = all_inputs us1 ++ all_inputs us2.
Proof. apply flat_map_app. Qed.

Lemma all_inputs_reverse us : all_inputs (reverse us) ≡ₚ all_inputs us.
Proof.
  induction us as [|u us IH]; [reflexivity |].
  rewrite reverse_cons, all_inputs_app, IH. cbn. rewrite app_nil_r.
  apply Permutation_app_comm.
Qed.

(** The loop of the closure, with the store it leaves: every unit holds
    the arguments, and objects that belong to no unit are untouched. *)
Lemma decoder_loop_run n a us :
  forall vs s or_arg,
    Forall2 (unit_for s) us vs ->
    NoDup (all_inputs us) ->
    Forall (fun v => bits v /\ length v = n) vs ->
    bits a -> length a = n -> bit or_arg ->
    exists s',
      decoder_loop n a us or_arg s
      = (inr (if decide (or_arg = 1 \/ a ∈ vs) then 1 else 0), s') /\
      cells s' = cells s /\
      polarity_kept s s' /\
      loaded s' us vs a /\
      (forall r, r ∉ all_inputs us -> (r < length (objs s))%nat ->
                 objs s' !! r = objs s !! r).
Proof.
  induction us as [|u us IH]; intros vs s or_arg Hus Hnd Hvs Ba Hlen Bo.
  - apply Forall2_nil_inv_l in Hus as ->. exists s. cbn [decoder_loop]. unfold ret.
    repeat split; [| apply polarity_kept_refl | constructor].
    do 2 f_equal. case_decide as D.
    + destruct D as [-> | D]; [reflexivity | inversion D].
    + destruct Bo as [-> | ->]; [reflexivity | exfalso; apply D; left; reflexivity].
  - apply Forall2_cons_inv_l in Hus as (v & vs' & U & Hus' & ->).
    apply Forall_cons in Hvs as [[Bv Hv] Hvs'].
    cbn [all_inputs flat_map] in Hnd. fold (all_inputs us) in Hnd.
    apply NoDup_app in Hnd as (_ & Hdisj & Hnd').
    assert (Hlen' : length a = length v) by congruence.
    destruct (present_unit _ _ _ a U Hlen') as [T H]. rewrite Hv in T.
    cbn [decoder_loop].
    rewrite (bind_run _ _ _ _ _ T).
    rewrite (bind_run _ _ _ _ _
               (activate_unit _ _ v a (proj1 U) H Bv Ba Hlen')).
    rewrite (bind_run _ _ _ _ _ (OR_run _ _ _)). cbn [objs cells].
    set (s1 := mkStore (store_args (inputs u) a (objs s)) (cells s)) in *.
    set (s2 := mkStore (_ ++ _) _).
    assert (K1 : polarity_kept s s1)
      by apply (polarity_kept_store_args s (inputs u) a (cells s)).
    assert (K2 : polarity_kept s1 s2) by apply (polarity_kept_app s1).
    assert (K : polarity_kept s s2) by (eapply polarity_kept_trans; eassumption).
    destruct (IH vs' s2 (if or_arg + (if decide (a = v) then 1 else 0) >=? 1
                         then 1 else 0))
      as (s' & E & C & K' & Hld & Hfr); auto.
    + exact (units_for_mono _ _ _ _ K Hus').
    + destruct (_ >=? 1); [right | left]; reflexivity.
    + assert (L1 : length (objs s1) = length (objs s))
        by (cbn; apply length_store_args).
      assert (L2 : (length (objs s1) <= length (objs s2))%nat)
        by (unfold s2, s1; cbn [objs]; rewrite length_app; lia).
      exists s'. rewrite E. repeat split.
      * do 2 f_equal. apply decide_ext, or_step. exact Bo.
      * rewrite C. reflexivity.
      * eapply polarity_kept_trans; eassumption.
      * constructor; [| exact Hld].
        apply (held_transfer s2); [apply (held_app s1); exact H |].
        intros r Hr. apply Hfr; [apply Hdisj; exact Hr |].
        pose proof (unit_for_valid _ _ _ U) as Hval.
        rewrite Forall_forall in Hval. specialize (Hval r Hr). lia.
      * intros r Hnot Hr.
        cbn [all_inputs flat_map] in Hnot. fold (all_inputs us) in Hnot.
        apply not_elem_of_app in Hnot as [Hnu Hnus].
        rewrite Hfr by (auto; lia).
        unfold s2, s1 in *. cbn [objs] in *. rewrite lookup_app_l by lia.
        apply store_args_notin. exact Hnu.
Qed.

(** An invocation of the closure, given what the activation of
    [decoder_units[0]] after the reversal returns: [uz] is the last unit of
    the list before the reversal, [ui] the unit whose inputs the variable
    [inputs] is bound to. *)
Lemma decoder_run_from n c a us uz vs ui vi b0 s :
  cells s !! c = Some us -> last us = Some uz ->
  Forall2 (unit_for s) us vs ->
  NoDup (all_inputs us) ->
  Forall (fun v => bits v /\ length v = n) vs ->
  unit_for s ui vi -> length vi = n ->
  bits a -> length a = n -> bit b0 ->
  (forall s2, objs s2 = store_args (inputs ui) a (objs s) ->
              activate uz s2 = (inr b0, s2)) ->
  exists s',
    decoder (mkClosure n (Some (inputs ui)) c) a s
    = (inr (if decide (b0 = 1 \/ a ∈ vs) then 1 else 0), s') /\
    cells s' !! c = Some (reverse us) /\
    Forall2 (unit_for s') us vs /\
    loaded s' us vs a.
Proof.
  intros Hc Hlast Hus Hnd Hvs Ui Hli Ba Hlen Bb Hact.
  assert (Hlen' : length a = length vi) by congruence.
  destruct (present_unit _ _ _ a Ui Hlen') as [T _]. rewrite Hli in T.
  set (s1 := mkStore (store_args (inputs ui) a (objs s)) (cells s)) in *.
  set (s2 := mkStore (objs s1) (<[c := reverse us]> (cells s1))).
  assert (K : polarity_kept s s2).
  { eapply polarity_kept_trans;
      [apply (polarity_kept_store_args s (inputs ui) a (cells s)) |].
    apply polarity_kept_objs. reflexivity. }
  destruct (decoder_loop_run n a (reverse us) (reverse vs) s2 b0)
    as (s' & E' & C' & K' & Hld & _).
  - apply Forall2_reverse. exact (units_for_mono _ _ _ _ K Hus).
  - rewrite all_inputs_reverse. exact Hnd.
  - apply Forall_reverse. exact Hvs.
  - exact Ba.
  - exact Hlen.
  - exact Bb.
  - exists s'. repeat split.
    + unfold decoder. cbn [cl_vec_length cl_decoder_units].
      erewrite bind_run by (rewrite <- T; apply for_each_ext; reflexivity).
      assert (R : reverse_cell c s1 = (inr tt, s2))
        by (unfold reverse_cell; cbn [cells s1]; rewrite Hc; reflexivity).
      rewrite (bind_run _ _ _ _ _ R).
      assert (G : get_cell c s2 = (inr (reverse us), s2)).
      { unfold get_cell. cbn [cells s2 s1].
        rewrite list_lookup_insert_eq by (apply lookup_lt_is_Some; eauto).
        reflexivity. }
      rewrite (bind_run _ _ _ _ _ G).
      erewrite bind_run
        by (apply index_run; rewrite <- head_lookup, head_reverse; exact Hlast).
      rewrite (bind_run _ _ _ _ _ (Hact s2 eq_refl)).
      rewrite E'. do 2 f_equal. apply decide_ext.
      rewrite elem_of_reverse. reflexivity.
    + rewrite C'. cbn [cells s2 s1].
      apply list_lookup_insert_eq, lookup_lt_is_Some. eauto.
    + apply (units_for_mono s); [| exact Hus].
      eapply polarity_kept_trans; eassumption.
    + apply Forall2_reverse in Hld. rewrite !reverse_involutive in Hld. exact Hld.
Qed.

(** Activating a unit whose inputs were left alone by the triggering of
    the inputs of another unit: it still sees the tuple it held. *)
Lemma activate_stale s s2 uz vz ui a prev :
  unit_for s uz vz -> held s (inputs uz) (presented vz prev) ->
  (forall r, r ∈ inputs uz -> r ∉ inputs ui) ->
  objs s2 = store_args (inputs ui) a (objs s) ->
  bits vz -> bits prev -> length prev = length vz ->
  activate uz s2 = (inr (if decide (prev = vz) then 1 else 0), s2).
Proof.
  intros U H Hdisj E Bv Bp Hlen.
  apply activate_unit; [exact (proj1 U) | | assumption ..].
  apply (held_transfer s); [exact H |].
  intros r Hr. rewrite E. apply store_args_notin, Hdisj, Hr.
Qed.

(** Activating the unit whose inputs have just been triggered. *)
Lemma activate_fresh s s2 ul vl a :
  unit_for s ul vl ->
  objs s2 = store_args (inputs ul) a (objs s) ->
  bits vl -> bits a -> length a = length vl ->
  activate ul s2 = (inr (if decide (a = vl) then 1 else 0), s2).
Proof.
  intros U E Bv Ba Hlen.
  apply activate_unit; [exact (proj1 U) | | assumption ..].
  destruct (present_unit _ _ _ a U Hlen) as [_ H].
  apply (held_transfer _ _ _ _ H). intros r _. rewrite E. reflexivity.
Qed.

Section Closure.

(** A closure over the units [us' ++ [ul]], built for the vectors
    [vs' ++ [vl]]; its variable [inputs] is bound to the inputs of the
    last-built unit [ul]. *)
Variables (n c : nat).
Variables (us' : list MPNeuron) (ul : MPNeuron).
Variables (vs' : list (list Z)) (vl : list Z).
Hypothesis distinct : NoDup (all_inputs (us' ++ [ul])).
Hypothesis well_formed : Forall (fun v => bits v /\ length v = n) (vs' ++ [vl]).

(** One invocation: what it returns and the state it leaves. *)
Lemma decoder_run flipped prev a s :
  ready c (us' ++ [ul]) (vs' ++ [vl]) flipped prev s ->
  bits prev -> length prev = n -> bits a -> length a = n ->
  exists s',
    decoder (mkClosure n (Some (inputs ul)) c) a s
    = (inr (if decide (a ∈ vs' ++ [vl] \/
                       (flipped = true /\ (2 <= length (vs' ++ [vl]))%nat /\
                        head (vs' ++ [vl]) = Some prev))
            then 1 else 0), s') /\
    ready c (us' ++ [ul]) (vs' ++ [vl]) (negb flipped) a s'.
Proof.
  intros (Hc & Hus & Hld) Bp Lp Ba La.
  pose proof (Forall2_length _ _ _ Hus) as Hlens. rewrite !length_app in Hlens.
  cbn [length] in Hlens.
  assert (Hl : length us' = length vs') by lia. clear Hlens.
  destruct (Forall2_app_inv _ _ _ _ _ Hl Hus) as [Hus' Hul].
  apply Forall2_cons_1 in Hul as [Ul _].
  pose proof well_formed as Hwf.
  apply Forall_app in Hwf as [Hvs' Hvl].
  apply Forall_cons in Hvl as [[Bvl Lvl] _].
  destruct flipped; cbn [negb].
  - (* the list is reversed: [decoder_units[0]] will be the first-built unit *)
    destruct us' as [|u1 us'']; destruct vs' as [|v1 vs'']; try discriminate Hl.
    + (* one unit *)
      destruct (decoder_run_from n c a [ul] ul [vl] ul vl
                  (if decide (a = vl) then 1 else 0) s)
        as (s' & E & Hc' & Hus1 & Hld1); auto.
      * case_decide; [right | left]; reflexivity.
      * intros s2 E2. apply (activate_fresh s); auto. congruence.
      * exists s'. split; [| repeat split; assumption].
        rewrite E. do 2 f_equal. apply decide_ext. cbn [app length].
        rewrite list_elem_of_singleton.
        destruct (decide (a = vl)); intuition (discriminate || lia).
    + (* at least two units *)
      cbn [app] in *.
      apply Forall2_cons_1 in Hus as [U1 Hrest].
      apply Forall2_cons_1 in Hld as [H1 _].
      apply Forall_cons in Hvs' as [[Bv1 Lv1] _].
      destruct (decoder_run_from n c a (reverse (u1 :: us'' ++ [ul])) u1
                  (reverse (v1 :: vs'' ++ [vl])) ul vl
                  (if decide (prev = v1) then 1 else 0) s)
        as (s' & E & Hc' & Hus1 & Hld1); auto.
      * rewrite last_reverse. reflexivity.
      * apply Forall2_reverse. constructor; assumption.
      * rewrite all_inputs_reverse. exact distinct.
      * apply Forall_reverse. exact well_formed.
      * case_decide; [right | left]; reflexivity.
      * intros s2 E2.
        apply (activate_stale s s2 u1 v1 ul a prev); auto; [| congruence].
        intros r Hr. pose proof distinct as Hd.
        cbn [all_inputs flat_map] in Hd. apply NoDup_app in Hd as (_ & Hd & _).
        intros Hin. apply (Hd r Hr).
        fold (all_inputs (us'' ++ [ul])). rewrite all_inputs_app.
        apply elem_of_app. right. cbn. rewrite app_nil_r. exact Hin.
      * exists s'. split.
        -- rewrite E. do 2 f_equal. apply decide_ext.
           rewrite elem_of_reverse. cbn [head length]. rewrite length_app.
           cbn [length].
           destruct (decide (prev = v1)) as [-> | Hne].
           ++ split; [intros _; right; repeat split; lia | intros _; left; reflexivity].
           ++ split; [intros [? | ?]; [discriminate | left; assumption] |].
              intros [? | (_ & _ & Hh)]; [right; assumption |].
              inversion Hh. congruence.
        -- rewrite reverse_involutive in Hc'.
           apply Forall2_reverse in Hus1, Hld1.
           rewrite !reverse_involutive in Hus1, Hld1.
           repeat split; assumption.
  - (* the list is in building order: [decoder_units[0]] will be [ul] *)
    destruct (decoder_run_from n c a (us' ++ [ul]) ul (vs' ++ [vl]) ul vl
                (if decide (a = vl) then 1 else 0) s)
      as (s' & E & Hc' & Hus1 & Hld1); auto.
    + apply last_snoc.
    + case_decide; [right | left]; reflexivity.
    + intros s2 E2. apply (activate_fresh s); auto. congruence.
    + exists s'. split; [| repeat split; assumption].
      rewrite E. do 2 f_equal. apply decide_ext.
      rewrite elem_of_app, list_elem_of_singleton.
      destruct (decide (a = vl)); intuition discriminate.
Qed.

(** Any sequence of invocations. *)
Lemma calls_run argss :
  forall flipped prev s,
    ready c (us' ++ [ul]) (vs' ++ [vl]) flipped prev s ->
    bits prev -> length prev = n ->
    Forall (fun a => bits a /\ length a = n) argss ->
    exists s',
      calls (mkClosure n (Some (inputs ul)) c) argss s
      = (inr (expected (vs' ++ [vl]) flipped prev argss), s').
Proof.
  induction argss as [|a argss IH]; intros flipped prev s R Bp Lp Hargs.
  - exists s. reflexivity.
  - apply Forall_cons in Hargs as [[Ba La] Hargs].
    destruct (decoder_run flipped prev a s R Bp Lp Ba La) as (s1 & E & R1).
    destruct (IH (negb flipped) a s1 R1 Ba La Hargs) as (s' & E').
    exists s'. cbn [calls expected].
    rewrite (bind_run _ _ _ _ _ E), (bind_run _ _ _ _ _ E').
    reflexivity.
Qed.

End Closure.

(** What any session returns: the first, third, ... invocations return the
    membership of their arguments among the vectors; with two vectors or
    more, the second, fourth, ... invocations return 1 also when the
    previous arguments were the first vector. *)
Theorem session_returns (s : store) (vecs argss : list (list Z)) (n : nat) :
  vecs <> [] ->
  Forall (fun v => bits v /\ length v = n) vecs ->
  Forall (fun a => bits a /\ length a = n) argss ->
  result (session vecs argss) s
  = inr (expected vecs false (replicate n 0) argss).
Proof.
  intros Hne Hvs Hargs.
  assert (Hlens : Forall (fun v => length v = n) vecs)
    by (eapply Forall_impl; [exact Hvs | intros v [_ ?]; assumption]).
  destruct (decode_run n vecs s Hlens) as (us & s1 & D & Hus & Hnd & Hld).
  destruct (proj2 (last_is_Some vecs) Hne) as [vl Hvl].
  apply last_Some in Hvl as [vs Evecs]. subst vecs.
  pose proof Hus as Hus0.
  apply Forall2_app_inv_r in Hus0 as (us' & ul1 & _ & Hul & ->).
  apply Forall2_cons_inv_r in Hul as (ul & ? & _ & Hnil & ->).
  apply Forall2_nil_inv_r in Hnil as ->.
  rewrite last_snoc in D.
  set (s2 := mkStore (objs s1) (cells s ++ [us' ++ [ul]])) in *.
  destruct (calls_run n (length (cells s)) us' ul vs vl Hnd Hvs argss
              false (replicate n 0) s2) as [s' F].
  - repeat split.
    + apply list_lookup_middle. reflexivity.
    + apply (units_for_mono s1); [apply polarity_kept_objs; reflexivity | exact Hus].
    + exact Hld.
  - apply Forall_replicate. left. reflexivity.
  - apply length_replicate.
  - exact Hargs.
  - unfold result, session.
    assert (I : Decoder_init (vs ++ [vl]) s = (inr (mkDecoder (vs ++ [vl]) n), s)).
    { destruct vs as [|v0 vs0]; cbn [app] in *; rewrite Decoder_init_run;
        apply Forall_cons in Hlens as [-> _]; reflexivity. }
    rewrite (bind_run _ _ _ _ _ I), (bind_run _ _ _ _ _ D), F.
    reflexivity.
Qed.

Lemma session_returns_witness :
  result (session [[0;1;0]; [0;1;1]; [1;0;1]]
            [[0;1;0]; [0;1;1]; [1;0;1]; [0;0;0]; [0;0;1]; [1;0;0]; [1;1;0]; [1;1;1]])
         empty_store
  = inr (expected [[0;1;0]; [0;1;1]; [1;0;1]] false (replicate 3 0)
           [[0;1;0]; [0;1;1]; [1;0;1]; [0;0;0]; [0;0;1]; [1;0;0]; [1;1;0]; [1;1;1]]).
Proof.
  apply (session_returns empty_store _ _ 3).
  - discriminate.
  - closed_list.
  - closed_list.
Defined.

Example expected_notebook :
  expected [[0;1;0]; [0;1;1]; [1;0;1]] false (replicate 3 0)
    [[0;1;0]; [0;1;1]; [1;0;1]; [0;0;0]; [0;0;1]; [1;0;0]; [1;1;0]; [1;1;1]]
  = [1; 1; 1; 0; 0; 0; 0; 0].
Proof. vm_compute. reflexivity. Qed.

(** ** The first invocation *)

(** C10. For a Decoder freshly constructed from a non-empty list of
    bit-vectors of length [n], on any store, the first invocation of the
    closure that [decode] returns, on a bit-vector [a] of length [n],
    returns 1 if [a] is one of the vectors and 0 if it is not. *)
Theorem first_call_correct (s : store) (vecs : list (list Z)) (a : list Z) (n : nat) :
  vecs <> [] ->
  Forall (fun v => bits v /\ length v = n) vecs ->
  bits a -> length a = n ->
  result (session vecs [a]) s = inr [if decide (a ∈ vecs) then 1 else 0].
Proof.
  intros Hne Hvs Ba Hlen.
  rewrite (session_returns s vecs [a] n Hne Hvs)
    by (apply Forall_cons; split; [split; assumption | apply Forall_nil; exact I]).
  cbn [expected]. do 2 f_equal. apply decide_ext.
  split; [intros [H | (H & _)]; [exact H | discriminate H] | intros H; left; exact H].
Qed.

Lemma first_call_correct_witness :
  result (session [[0;1;0]; [0;1;1]; [1;0;1]] [[0;1;1]]) empty_store
  = inr [if decide ([0;1;1] ∈ [[0;1;0]; [0;1;1]; [1;0;1]]) then 1 else 0].
Proof.
  apply (first_call_correct empty_store [[0;1;0]; [0;1;1]; [1;0;1]] [0;1;1] 3).
  - discriminate.
  - closed_list.
  - closed_list.
  - reflexivity.
Defined.

(** ** History dependence of the closure *)

(** C1. A second invocation can be wrong: after [f(0,1,0)], the call
    [f(0,0,0)] returns 1 although [(0,0,0)] is not one of the vectors. *)
Theorem second_call_wrong :
  result (session [[0;1;0]; [0;1;1]; [1;0;1]] [[0;1;0]; [0;0;0]]) empty_store
  = inr [1; 1]
  /\ [0;0;0] ∉ [[0;1;0]; [0;1;1]; [1;0;1]].
Proof.
  split; [vm_compute; reflexivity |].
  intros H. repeat (apply elem_of_cons in H as [H | H]; [discriminate |]).
  inversion H.
Qed.

(** C4. Two invocations of one closure with the same tuple can differ:
    after [f(0,1,0)], the call [f(0,0,0)] returns 1 and the next call
    [f(0,0,0)] returns 0. *)
Theorem same_tuple_differs :
  result (session [[0;1;0]; [0;1;1]; [1;0;1]] [[0;1;0]; [0;0;0]; [0;0;0]])
         empty_store
  = inr [1; 1; 0].
Proof. vm_compute. reflexivity. Qed.

(** C7. Duplicating the vector of a one-vector Decoder changes what the
    closure returns: on the invocations [f(1)], [f(0)] the closure for
    [[[1]]] returns 1 then 0, the closure for [[[1],[1]]] returns 1 then 1. *)
Theorem duplicate_changes_behaviour :
  result (session [[1]] [[1]; [0]]) empty_store = inr [1; 0] /\
  result (session ([[1]] ++ [[1]]) [[1]; [0]]) empty_store = inr [1; 1].
Proof. split; vm_compute; reflexivity. Qed.

(** * Further properties of the code *)

(** ** MPInput: construction and [trigger] *)

(** X1. [trigger] followed by a read of the same object gives the new value
    and the polarity the object had; every other object, the number of
    objects and the lists of units are as before, and of two triggers in a
    row only the second one counts. *)
Theorem trigger_then_read (s : store) (r : nat) (o : MPInput) (v : Z) :
  objs s !! r = Some o ->
  result (trigger r v ;; read r) s = inr (mkMPInput (excitatory o) v) /\
  (forall r', r' <> r -> objs (snd (trigger r v s)) !! r' = objs s !! r') /\
  length (objs (snd (trigger r v s))) = length (objs s) /\
  cells (snd (trigger r v s)) = cells s /\
  (forall v0, snd ((trigger r v0 ;; trigger r v) s) = snd (trigger r v s)).
Proof.
  intros Ho. pose proof (lookup_lt_Some _ _ _ Ho) as Hr.
  rewrite (trigger_run _ _ _ _ Ho). cbn [snd objs cells].
  repeat split.
  - unfold result. erewrite bind_run by (apply trigger_run; exact Ho).
    erewrite read_run; [reflexivity |]. cbn [objs].
    apply list_lookup_insert_eq. exact Hr.
  - intros r' Hne. apply list_lookup_insert_ne. congruence.
  - apply length_insert.
  - intros v0. erewrite bind_run by (apply trigger_run; exact Ho).
    erewrite trigger_run
      by (cbn [objs]; apply list_lookup_insert_eq; exact Hr).
    cbn [snd objs cells excitatory]. rewrite list_insert_insert_eq. reflexivity.
Qed.

Lemma trigger_then_read_witness :
  result (trigger 1 1 ;; read 1)
         (mkStore [mkMPInput true 0; mkMPInput false 0] [])
  = inr (mkMPInput false 1).
Proof.
  apply (trigger_then_read (mkStore [mkMPInput true 0; mkMPInput false 0] [])
           1%nat (mkMPInput false 0) 1).
  reflexivity.
Defined.

(** [MPInput(exc)] returns a reference that pointed to nothing before;
    the new object has the polarity [exc] and the value 0, and every object
    that was in the store is unchanged. *)
Theorem MPInput_new_fresh (s : store) (exc : bool) :
  exists r s',
    MPInput_new exc s = (inr r, s') /\
    objs s !! r = None /\
    objs s' !! r = Some (mkMPInput exc 0) /\
    (forall r' o, objs s !! r' = Some o -> objs s' !! r' = Some o) /\
    cells s' = cells s.
Proof.
  eexists _, _. split; [apply MPInput_new_run |]. cbn [objs cells].
  repeat split.
  - apply lookup_ge_None. lia.
  - apply list_lookup_middle. reflexivity.
  - intros r' o Ho. apply lookup_app_l_Some. exact Ho.
Qed.

(** ** MPNeuron: [activate] on any store and any integer values *)

Lemma activate_loop_snd l :
  forall thr e s, snd (activate_loop thr e l s) = s.
Proof.
  induction l as [|r l IH]; intros thr e s; [reflexivity |].
  cbn [activate_loop]. unfold bind, read.
  destruct (objs s !! r) as [o|]; [| reflexivity].
  destruct (excitatory o); [apply IH |].
  destruct (negb (value o =? 0)); [reflexivity | apply IH].
Qed.

Lemma activate_loop_bit l :
  forall thr e s r, fst (activate_loop thr e l s) = inr r -> bit r.
Proof.
  induction l as [|r0 l IH]; intros thr e s r.
  - cbn. intros [= <-]. destruct (e >=? thr); [right | left]; reflexivity.
  - cbn [activate_loop]. unfold bind, read.
    destruct (objs s !! r0) as [o|]; [| discriminate].
    destruct (excitatory o); [apply IH |].
    destruct (negb (value o =? 0)); [| apply IH].
    cbn. intros [= <-]. left. reflexivity.
Qed.

(** X2. [activate] never changes the store, whatever the neuron and the
    store are, and what it returns is 0 or 1. *)
Theorem activate_reads_only (u : MPNeuron) (s : store) :
  snd (activate u s) = s /\
  forall r, result (activate u) s = inr r -> bit r.
Proof.
  split; [apply activate_loop_snd |].
  intros r. apply activate_loop_bit.
Qed.

Lemma existsb_blocking_Exists os :
  existsb blocking os = true
  <-> Exists (fun o => excitatory o = false /\ value o <> 0) os.
Proof.
  induction os as [|o os IH]; cbn [existsb].
  - split; [discriminate | intros H; inversion H].
  - rewrite orb_true_iff, IH, Exists_cons. unfold blocking.
    destruct (excitatory o), (Z.eqb_spec (value o) 0); cbn; intuition congruence.
Qed.

(** X3. The activation rule for arbitrary integer values: [activate]
    returns 0 if some inhibitory input has a value other than 0 (the test is
    Python's truth test, so 2 or -1 inhibit as 1 does), and otherwise
    returns 1 exactly when the sum of the values of the excitatory inputs
    is at least the threshold. *)
Theorem activate_on_integers (s : store) (u : MPNeuron) (os : list MPInput) :
  held s (inputs u) os ->
  (Exists (fun o => excitatory o = false /\ value o <> 0) os ->
   result (activate u) s = inr 0) /\
  (~ Exists (fun o => excitatory o = false /\ value o <> 0) os ->
   result (activate u) s = inr (if excitation os >=? threshold u then 1 else 0)).
Proof.
  intros H. unfold result. rewrite (activate_run _ _ _ H). cbn [fst].
  unfold activation. pose proof (existsb_blocking_Exists os) as I.
  split.
  - intros Hin. apply I in Hin. rewrite Hin. reflexivity.
  - intros Hn. destruct (existsb blocking os); [exfalso; apply Hn, I; reflexivity |].
    rewrite Z.add_0_l. reflexivity.
Qed.

Lemma activate_on_integers_witness :
  result (activate (mkMPNeuron 0 [0; 1]%nat))
         (mkStore [mkMPInput true 5; mkMPInput false (-1)] []) = inr 0.
Proof.
  apply (activate_on_integers
           (mkStore [mkMPInput true 5; mkMPInput false (-1)] [])
           (mkMPNeuron 0 [0; 1]%nat)
           [mkMPInput true 5; mkMPInput false (-1)]).
  - apply Forall2_cons; split; [reflexivity |].
    apply Forall2_cons; split; [reflexivity | apply Forall2_nil_2].
  - apply Exists_cons. right. apply Exists_cons. left.
    split; [reflexivity | discriminate].
Defined.

(** X4. Lowering the threshold never stops a neuron from firing: if a
    neuron fires, the neuron with the same inputs and a threshold that is
    not larger fires on the same store. *)
Theorem activate_threshold_antitone (s : store) (u : MPNeuron) (os : list MPInput)
    (t : Z) :
  held s (inputs u) os ->
  t <= threshold u ->
  result (activate u) s = inr 1 ->
  result (activate (mkMPNeuron t (inputs u))) s = inr 1.
Proof.
  intros H Ht. unfold result.
  rewrite (activate_run _ _ _ H), (activate_run s (mkMPNeuron t (inputs u)) os H).
  cbn [fst threshold]. unfold activation.
  destruct (existsb blocking os); [discriminate |].
  destruct (0 + excitation os >=? threshold u) eqn:C; [| discriminate].
  intros _. destruct (0 + excitation os >=? t) eqn:C'; [reflexivity | lia].
Qed.

Lemma activate_threshold_antitone_witness :
  result (activate (mkMPNeuron 1 [0; 1]%nat))
         (mkStore [mkMPInput true 1; mkMPInput true 1] []) = inr 1.
Proof.
  apply (activate_threshold_antitone
           (mkStore [mkMPInput true 1; mkMPInput true 1] [])
           (mkMPNeuron 2 [0; 1]%nat)
           [mkMPInput true 1; mkMPInput true 1] 1).
  - apply Forall2_cons; split; [reflexivity |].
    apply Forall2_cons; split; [reflexivity | apply Forall2_nil_2].
  - cbn. lia.
  - reflexivity.
Defined.

(** ** The gates on any integers, and what they leave in the store *)

(** X5. The gates on arbitrary integers: [AND] returns 1 exactly when
    [x1 + x2 >= 2], [OR] exactly when [x1 + x2 >= 1] and [NOT] exactly when
    [x == 0]; each returns 0 otherwise. So [AND(2,0)] is 1 and [OR(1,-1)]
    is 0. *)
Theorem gates_on_integers (s : store) (x1 x2 x : Z) :
  result (AND x1 x2) s = inr (if decide (2 <= x1 + x2) then 1 else 0) /\
  result (OR x1 x2) s = inr (if decide (1 <= x1 + x2) then 1 else 0) /\
  result (NOT x) s = inr (if decide (x = 0) then 1 else 0).
Proof.
  unfold result. rewrite AND_run, OR_run, NOT_run. cbn [fst].
  repeat split; f_equal.
  - destruct (x1 + x2 >=? 2) eqn:C; case_decide; lia.
  - destruct (x1 + x2 >=? 1) eqn:C; case_decide; lia.
  - destruct (Z.eqb_spec x 0); case_decide; lia.
Qed.

(** X6. A gate works on inputs of its own: every object that was in the
    store is unchanged after [AND], [OR] or [NOT], the lists of units are
    unchanged, and the store has two more objects (one for [NOT]). *)
Theorem gates_leave_store (s : store) (x1 x2 : Z) :
  (forall r o, objs s !! r = Some o ->
     objs (snd (AND x1 x2 s)) !! r = Some o /\
     objs (snd (OR x1 x2 s)) !! r = Some o /\
     objs (snd (NOT x1 s)) !! r = Some o) /\
  cells (snd (AND x1 x2 s)) = cells s /\
  cells (snd (OR x1 x2 s)) = cells s /\
  cells (snd (NOT x1 s)) = cells s /\
  length (objs (snd (AND x1 x2 s))) = (length (objs s) + 2)%nat /\
  length (objs (snd (OR x1 x2 s))) = (length (objs s) + 2)%nat /\
  length (objs (snd (NOT x1 s))) = (length (objs s) + 1)%nat.
Proof.
  rewrite AND_run, OR_run, NOT_run. cbn [snd objs cells].
  rewrite !length_app. cbn [length].
  repeat split; try reflexivity; apply lookup_app_l_Some; assumption.
Qed.

(** X7. The gates compose as the connectives do: on bits, [OR] is what
    [NOT], [AND] and [NOT] give by De Morgan's law, and [AND] is what
    [NOT], [OR] and [NOT] give, each gate run after the other on the same
    store. *)
Theorem gates_de_morgan (s : store) (x1 x2 : Z) :
  bit x1 -> bit x2 ->
  result (a <- NOT x1 ;; b <- NOT x2 ;; c <- AND a b ;; NOT c) s
  = result (OR x1 x2) s /\
  result (a <- NOT x1 ;; b <- NOT x2 ;; c <- OR a b ;; NOT c) s
  = result (AND x1 x2) s.
Proof.
  intros B1 B2. unfold result.
  rewrite !(bind_run _ _ _ _ _ (NOT_run _ _)).
  rewrite (bind_run _ _ _ _ _ (AND_run _ _ _)).
  rewrite (bind_run _ _ _ _ _ (OR_run _ _ _)).
  rewrite !NOT_run, AND_run, OR_run. cbn [fst].
  destruct B1 as [-> | ->], B2 as [-> | ->]; split; reflexivity.
Qed.

Lemma gates_de_morgan_witness :
  result (a <- NOT 1 ;; b <- NOT 0 ;; c <- AND a b ;; NOT c) empty_store
  = result (OR 1 0) empty_store /\
  result (a <- NOT 1 ;; b <- NOT 0 ;; c <- OR a b ;; NOT c) empty_store
  = result (AND 1 0) empty_store.
Proof.
  apply (gates_de_morgan empty_store 1 0); [right | left]; reflexivity.
Defined.

(** ** [decode] on vectors of unequal lengths *)

Lemma bind_raise {A B} (m : Py A) (k : A -> Py B) s e s' :
  m s = (inl e, s') -> bind m k s = (inl e, s').
Proof. intros E. unfold bind. rewrite E. reflexivity. Qed.

Lemma sum_app (l1 l2 : list Z) : sum (l1 ++ l2) = sum l1 + sum l2.
Proof.
  induction l1 as [|x l1 IH]; [rewrite sum_nil; cbn [app]; lia |].
  cbn [app]. rewrite !sum_cons, IH. lia.
Qed.

Lemma sum_bits_nonneg (v : list Z) : bits v -> 0 <= sum v.
Proof.
  induction 1 as [|x v [-> | ->] _ IH]; [rewrite sum_nil; lia | ..];
    rewrite sum_cons; lia.
Qed.

(** The decoder unit [decode] builds from a vector that has at least
    [vec_length] entries: the entries beyond [vec_length] get no input but
    count in the threshold. *)
Lemma decoder_unit_run_take n v s :
  (n <= length v)%nat ->
  decoder_unit n v s
  = (inr (mkMPNeuron (sum v) (seq (length (objs s)) n)),
     mkStore (objs s ++ ((fun vi => mkMPInput (vi =? 1) 0) <$> take n v)) (cells s)).
Proof.
  intros Hn. unfold decoder_unit, range.
  py_step ltac:(apply build_inputs_run; lia).
  rewrite drop_0. reflexivity.
Qed.

(** X8. The decoder unit of a bit-vector [v] that is longer than
    [vec_length = n]: triggered with a bit-vector [a] of length [n] it
    activates to 1 exactly when [a] is the first [n] entries of [v] and the
    remaining entries of [v] are all 0; a 1 beyond position [n] raises the
    threshold out of reach and the unit never fires. *)
Theorem decoder_unit_longer_vector (s : store) (n : nat) (v a : list Z) :
  (n <= length v)%nat -> bits v -> bits a -> length a = n ->
  result (u <- decoder_unit n v ;;
          trigger_inputs n (inputs u) a ;;
          activate u) s
  = inr (if decide (a = take n v /\ sum (drop n v) = 0) then 1 else 0).
Proof.
  intros Hn Bv Ba Hlen. unfold result.
  rewrite (bind_run _ _ _ _ _ (decoder_unit_run_take n v s Hn)).
  assert (Lt : length (take n v) = n) by (rewrite length_take; lia).
  assert (Bt : bits (take n v)) by (apply Forall_take; exact Bv).
  assert (Bd : bits (drop n v)) by (apply Forall_drop; exact Bv).
  pose proof (decoder_unit_unit_for (take n v) (objs s) (cells s)) as U.
  rewrite Lt in U.
  assert (Hlen' : length a = length (take n v)) by congruence.
  destruct (present_unit _ _ _ a U Hlen') as [T H]. rewrite Lt in T.
  cbn [inputs] in T, H |- *.
  rewrite (bind_run _ _ _ _ _ T).
  erewrite activate_run by (cbn [inputs]; exact H).
  cbn [fst threshold]. f_equal.
  rewrite <- (take_drop n v) at 1. rewrite sum_app.
  pose proof (sum_bits_nonneg _ Bd) as Hd.
  destruct (decide (sum (drop n v) = 0)) as [E0 | Hpos].
  - rewrite E0, Z.add_0_r.
    rewrite <- (Z.add_0_l (sum (take n v))).
    rewrite activation_presented by assumption.
    apply decide_ext. tauto.
  - rewrite activation_short by (auto; lia).
    rewrite decide_False by tauto. reflexivity.
Qed.

Lemma decoder_unit_longer_vector_witness :
  result (u <- decoder_unit 2 [1; 0; 1] ;;
          trigger_inputs 2 (inputs u) [1; 0] ;;
          activate u) empty_store
  = inr (if decide ([1; 0] = take 2 [1; 0; 1] /\ sum (drop 2 [1; 0; 1]) = 0)
         then 1 else 0).
Proof.
  apply (decoder_unit_longer_vector empty_store 2 [1; 0; 1] [1; 0]).
  - cbn. lia.
  - closed_list.
  - closed_list.
  - reflexivity.
Defined.

(** The inner loop of [decode] runs off the end of a vector that is too
    short. *)
Lemma build_inputs_raise v m :
  forall k acc s,
    (k <= length v < k + m)%nat ->
    exists s', build_inputs v (seq k m) acc s = (inl IndexError, s').
Proof.
  induction m as [|m IH]; intros k acc s Hk; [lia |].
  cbn [seq build_inputs].
  destruct (decide (k = length v)) as [-> | Hne].
  - exists s. apply bind_raise. unfold index.
    rewrite (proj2 (lookup_ge_None v (length v))) by lia. reflexivity.
  - destruct (lookup_lt_is_Some_2 v k) as [vi Hvi]; [lia |].
    py_step ltac:(apply index_run; exact Hvi).
    py_step ltac:(apply MPInput_new_if).
    apply IH. lia.
Qed.

Lemma decode_loop_raise n vecs :
  Exists (fun v => (length v < n)%nat) vecs ->
  forall acc cur s,
    exists s', decode_loop n vecs acc cur s = (inl IndexError, s').
Proof.
  induction vecs as [|v vecs IH]; intros Hex acc cur s; [inversion Hex |].
  cbn [decode_loop].
  destruct (decide (length v < n)%nat) as [Hshort | Hlong].
  - destruct (build_inputs_raise v n 0%nat [] s) as [s' E]; [lia |].
    exists s'. apply bind_raise. unfold decoder_unit, range.
    apply bind_raise. exact E.
  - rewrite (bind_run _ _ _ _ _ (decoder_unit_run_take n v s ltac:(lia))).
    apply IH. apply Exists_cons in Hex as [Hex | Hex]; [contradiction | exact Hex].
Qed.

(** X9. A Decoder whose list holds a vector shorter than the first one is
    constructed without complaint, but [decode] raises [IndexError] (from
    [vector[i]]) and returns no closure, so no invocation takes place. *)
Theorem decode_short_vector_raises (s : store) (v0 : list Z)
    (rest argss : list (list Z)) :
  Exists (fun v => (length v < length v0)%nat) rest ->
  (exists d, result (Decoder_init (v0 :: rest)) s = inr d) /\
  result (d <- Decoder_init (v0 :: rest) ;; decode d) s = inl IndexError /\
  result (session (v0 :: rest) argss) s = inl IndexError.
Proof.
  intros Hex.
  assert (Hex' : Exists (fun v => (length v < length v0)%nat) (v0 :: rest))
    by (apply Exists_cons; right; exact Hex).
  destruct (decode_loop_raise _ _ Hex' [] None s) as [s' E].
  assert (D : decode (mkDecoder (v0 :: rest) (length v0)) s = (inl IndexError, s')).
  { unfold decode. cbn [vec_length vectors]. apply bind_raise. exact E. }
  split; [eexists; unfold result; rewrite Decoder_init_run; reflexivity |].
  unfold result, session.
  rewrite !(bind_run _ _ _ _ _ (Decoder_init_run v0 rest s)).
  rewrite (bind_raise _ _ _ _ _ D), D. split; reflexivity.
Qed.

Lemma decode_short_vector_raises_witness :
  result (session [[1; 0; 0]; [0; 1]] [[1; 0; 0]]) empty_store = inl IndexError.
Proof.
  apply (decode_short_vector_raises empty_store [1; 0; 0] [[0; 1]] [[1; 0; 0]]).
  apply Exists_cons. left. cbn. lia.
Defined.

Lemma all_inputs_length s n us vs :
  Forall2 (unit_for s) us vs ->
  Forall (fun v => length v = n) vs ->
  length (all_inputs us) = (length vs * n)%nat.
Proof.
  induction 1 as [|u v us vs U _ IH]; intros Hn; [reflexivity |].
  apply Forall_cons in Hn as [Hv Hn].
  cbn [all_inputs flat_map length]. fold (all_inputs us).
  rewrite length_app, (unit_for_length _ _ _ U), Hv, IH by exact Hn.
  cbn. lia.
Qed.

(** X10. [decode], on a Decoder whose vectors all have [vec_length]
    entries, works on objects of its own: it returns a closure, leaves
    every object and every list of units of the store as it was, adds
    [len(vectors) * vec_length] input objects and one list of units, the
    one the closure holds. *)
Theorem decode_allocates (s : store) (vecs : list (list Z)) (n : nat) :
  Forall (fun v => length v = n) vecs ->
  exists f s',
    decode (mkDecoder vecs n) s = (inr f, s') /\
    cl_vec_length f = n /\
    (forall r o, objs s !! r = Some o -> objs s' !! r = Some o) /\
    length (objs s') = (length (objs s) + length vecs * n)%nat /\
    (forall c l, cells s !! c = Some l -> cells s' !! c = Some l) /\
    cells s !! cl_decoder_units f = None /\
    exists us, cells s' !! cl_decoder_units f = Some us /\
               length us = length vecs.
Proof.
  intros Hn.
  destruct (decode_loop_run n vecs [] None s Hn) as (us & tail & E & Hus & Hall & _).
  cbn zeta in E, Hus.
  pose proof (all_inputs_length _ _ _ _ Hus Hn) as Hlen.
  rewrite Hall, length_seq in Hlen.
  eexists _, _. split.
  { unfold decode. cbn [vec_length vectors].
    rewrite (bind_run _ _ _ _ _ E). cbn [fst snd app]. reflexivity. }
  cbn [cl_vec_length cl_decoder_units objs cells].
  repeat split.
  - intros r o Ho. apply lookup_app_l_Some. exact Ho.
  - rewrite length_app. lia.
  - intros c l Hc. apply lookup_app_l_Some. exact Hc.
  - apply lookup_ge_None. lia.
  - exists us. split; [apply list_lookup_middle; reflexivity |].
    exact (Forall2_length _ _ _ Hus).
Qed.

Lemma decode_allocates_witness :
  exists f s',
    decode (mkDecoder [[0; 1]; [1; 1]; [1; 0]] 2) empty_store = (inr f, s') /\
    cl_vec_length f = 2%nat /\
    (forall r o, objs empty_store !! r = Some o -> objs s' !! r = Some o) /\
    length (objs s') = (length (objs empty_store) + 3 * 2)%nat /\
    (forall c l, cells empty_store !! c = Some l -> cells s' !! c = Some l) /\
    cells empty_store !! cl_decoder_units f = None /\
    exists us, cells s' !! cl_decoder_units f = Some us /\ length us = 3%nat.
Proof.
  apply (decode_allocates empty_store [[0; 1]; [1; 1]; [1; 0]] 2).
  closed_list.
Defined.

(** ** The closure called with the wrong number of arguments *)

Lemma for_each_ext_in {A} (l : list A) (f g : A -> Py unit) :
  (forall x, x ∈ l -> forall s, f x s = g x s) ->
  forall s, for_each l f s = for_each l g s.
Proof.
  induction l as [|x l IH]; intros Hfg s; [reflexivity |].
  cbn [for_each]. unfold bind. rewrite Hfg by (left; reflexivity).
  destruct (g x s) as [[e | []] s']; [reflexivity |].
  apply IH. intros y Hy. apply Hfg. right. exact Hy.
Qed.

Lemma bind_ext {A B} (m m' : Py A) (k k' : A -> Py B) s :
  m s = m' s -> (forall x s', k x s' = k' x s') -> bind m k s = bind m' k' s.
Proof.
  intros Hm Hk. unfold bind. rewrite Hm.
  destruct (m' s) as [[e | x] s']; [reflexivity | apply Hk].
Qed.

Lemma for_each_app {A} (l1 l2 : list A) (f : A -> Py unit) s :
  for_each (l1 ++ l2) f s = (for_each l1 f ;; for_each l2 f) s.
Proof.
  revert s. induction l1 as [|x l1 IH]; intros s; [reflexivity |].
  cbn [app for_each]. unfold bind.
  destruct (f x s) as [[e | []] s']; [reflexivity |].
  rewrite IH. reflexivity.
Qed.

Lemma trigger_inputs_app n refs a extra s :
  (n <= length a)%nat ->
  trigger_inputs n refs (a ++ extra) s = trigger_inputs n refs a s.
Proof.
  intros Hn. apply for_each_ext_in. intros i Hi s0.
  apply elem_of_seq in Hi. unfold index.
  rewrite lookup_app_l by lia. reflexivity.
Qed.

Lemma decoder_loop_app n a extra us :
  (n <= length a)%nat ->
  forall or_arg s,
    decoder_loop n (a ++ extra) us or_arg s = decoder_loop n a us or_arg s.
Proof.
  intros Hn. induction us as [|u us IH]; intros or_arg s; [reflexivity |].
  cbn [decoder_loop].
  apply bind_ext; [apply trigger_inputs_app; exact Hn | intros _ s1].
  apply bind_ext; [reflexivity | intros val s2].
  apply bind_ext; [reflexivity | intros or_arg' s3].
  apply IH.
Qed.

(** X11. Arguments beyond [vec_length] are ignored: an invocation of any
    closure with extra arguments appended returns the same and leaves the
    same store as the invocation without them (also when it raises). *)
Theorem decoder_extra_arguments_ignored (f : closure) (a extra : list Z)
    (s : store) :
  (cl_vec_length f <= length a)%nat ->
  decoder f (a ++ extra) s = decoder f a s.
Proof.
  intros Hn. unfold decoder.
  apply bind_ext.
  - apply for_each_ext_in. intros i Hi s0.
    apply elem_of_seq in Hi. unfold index at 2 4.
    rewrite lookup_app_l by lia. reflexivity.
  - intros _ s1. apply bind_ext; [reflexivity | intros _ s2].
    apply bind_ext; [reflexivity | intros units s3].
    apply bind_ext; [reflexivity | intros u0 s4].
    apply bind_ext; [reflexivity | intros or_arg s5].
    apply decoder_loop_app. exact Hn.
Qed.

Lemma decoder_extra_arguments_ignored_witness :
  decoder (mkClosure 2 (Some [0; 1]%nat) 0) ([1; 0] ++ [1; 1])
    (mkStore [mkMPInput true 0; mkMPInput false 0]
             [[mkMPNeuron 1 [0; 1]%nat]])
  = decoder (mkClosure 2 (Some [0; 1]%nat) 0) [1; 0]
      (mkStore [mkMPInput true 0; mkMPInput false 0]
               [[mkMPNeuron 1 [0; 1]%nat]]).
Proof.
  apply (decoder_extra_arguments_ignored
           (mkClosure 2 (Some [0; 1]%nat) 0) [1; 0] [1; 1]).
  cbn. lia.
Defined.

(** The first loop of the closure runs off the end of an argument tuple
    that is too short, after triggering the inputs it has arguments for;
    the lists of units are not touched. *)
Lemma trigger_inputs_short n refs args s :
  (length args < n)%nat -> (n <= length refs)%nat ->
  Forall (fun r => (r < length (objs s))%nat) refs ->
  exists s',
    trigger_inputs n refs args s = (inl IndexError, s') /\
    cells s' = cells s.
Proof.
  intros Hshort Hn Hv. unfold trigger_inputs, range.
  set (j := length args) in *.
  assert (Es : seq 0 n = seq 0 j ++ seq (0 + j) (n - j))
    by (rewrite <- seq_app; f_equal; lia).
  rewrite Es, for_each_app. cbn [Nat.add]. clear Es.
  (* the positions that have an argument *)
  assert (P : for_each (seq 0 j)
                (fun i => r <- index refs i ;; a <- index args i ;; trigger r a) s
              = (inr tt, mkStore (store_args (take j refs) args (objs s)) (cells s))).
  { rewrite <- (trigger_inputs_run (take j refs) args s).
    - rewrite length_take, Nat.min_l by lia. unfold trigger_inputs, range.
      apply for_each_ext_in. intros i Hi s0. apply elem_of_seq in Hi.
      unfold index at 1 3. rewrite lookup_take_lt by lia. reflexivity.
    - rewrite length_take. lia.
    - apply Forall_take. exact Hv. }
  rewrite (bind_run _ _ _ _ _ P).
  (* the first position that has none *)
  destruct (n - j)%nat as [|m] eqn:Em; [lia |].
  cbn [seq for_each].
  destruct (lookup_lt_is_Some_2 refs j) as [r Hr]; [lia |].
  eexists. split.
  - apply bind_raise.
    py_step ltac:(apply index_run; exact Hr).
    apply bind_raise. unfold index.
    rewrite (proj2 (lookup_ge_None args j)) by (unfold j; lia). reflexivity.
  - reflexivity.
Qed.

(** An invocation with too few arguments, from a state [ready] describes. *)
Lemma decoder_short n c us ul vecs flipped prev a s :
  ready c (us ++ [ul]) vecs flipped prev s ->
  Forall (fun v => length v = n) vecs ->
  (length a < n)%nat ->
  exists s',
    decoder (mkClosure n (Some (inputs ul)) c) a s = (inl IndexError, s') /\
    cells s' = cells s.
Proof.
  intros (_ & Hus & _) Hn Hshort.
  apply Forall2_app_inv_l in Hus as (vs & vls & _ & Hul & ->).
  apply Forall2_cons_inv_l in Hul as (vl & ? & Ul & _ & ->).
  apply Forall_app in Hn as [_ Hn]. apply Forall_cons in Hn as [Hvl _].
  destruct (trigger_inputs_short n (inputs ul) a s) as (s' & E & C); auto.
  - rewrite (unit_for_length _ _ _ Ul). lia.
  - exact (unit_for_valid _ _ _ Ul).
  - exists s'. split; [| exact C].
    unfold decoder. cbn [cl_vec_length cl_decoder_units].
    apply bind_raise. rewrite <- E. apply for_each_ext. reflexivity.
Qed.

Section ClosureSessions.

(** The closure of section [Closure] again: units [us' ++ [ul]] for the
    vectors [vs' ++ [vl]], [inputs] bound to the inputs of [ul]. *)
Variables (n c : nat).
Variables (us' : list MPNeuron) (ul : MPNeuron).
Variables (vs' : list (list Z)) (vl : list Z).
Hypothesis distinct : NoDup (all_inputs (us' ++ [ul])).
Hypothesis well_formed : Forall (fun v => bits v /\ length v = n) (vs' ++ [vl]).

(** A sequence of invocations leaves the closure ready for the next one. *)
Lemma calls_ready argss :
  forall flipped prev s,
    ready c (us' ++ [ul]) (vs' ++ [vl]) flipped prev s ->
    bits prev -> length prev = n ->
    Forall (fun a => bits a /\ length a = n) argss ->
    exists s' flipped' prev',
      calls (mkClosure n (Some (inputs ul)) c) argss s
      = (inr (expected (vs' ++ [vl]) flipped prev argss), s') /\
      ready c (us' ++ [ul]) (vs' ++ [vl]) flipped' prev' s'.
Proof.
  induction argss as [|a argss IH]; intros flipped prev s R Bp Lp Hargs.
  - exists s, flipped, prev. split; [reflexivity | exact R].
  - apply Forall_cons in Hargs as [[Ba La] Hargs].
    destruct (decoder_run n c us' ul vs' vl distinct well_formed
                flipped prev a s R Bp Lp Ba La) as (s1 & E & R1).
    destruct (IH (negb flipped) a s1 R1 Ba La Hargs) as (s' & fl' & p' & E' & R').
    exists s', fl', p'. split; [| exact R'].
    cbn [calls expected].
    rewrite (bind_run _ _ _ _ _ E), (bind_run _ _ _ _ _ E').
    reflexivity.
Qed.

End ClosureSessions.

(** An exception raised by an invocation ends the sequence. *)
Lemma calls_app_raise f l1 :
  forall s r1 s1 a rest e s2,
    calls f l1 s = (inr r1, s1) ->
    decoder f a s1 = (inl e, s2) ->
    calls f (l1 ++ a :: rest) s = (inl e, s2).
Proof.
  induction l1 as [|a1 l1 IH]; intros s r1 s1 a rest e s2 E1 E2.
  - cbn in E1. injection E1 as _ <-. cbn [app calls].
    apply bind_raise. exact E2.
  - cbn [app calls] in E1 |- *. unfold bind in E1 |- *.
    destruct (decoder f a1 s) as [[e1 | x1] sa]; [discriminate E1 |].
    fold (bind (calls f (l1 ++ a :: rest)) (fun rs => ret (x1 :: rs)) sa).
    destruct (calls f l1 sa) as [[e1 | rs1] sb] eqn:C1; [discriminate E1 |].
    injection E1 as _ <-.
    apply bind_raise. exact (IH sa rs1 sb a rest e s2 C1 E2).
Qed.

(** What a session starts from: [Decoder(vecs).decode()] returns a closure
    whose list is in building order and whose inputs all hold 0. *)
Lemma session_ready (s : store) (vecs : list (list Z)) (n : nat) :
  vecs <> [] ->
  Forall (fun v => bits v /\ length v = n) vecs ->
  exists us' ul vs' vl c s2,
    vecs = vs' ++ [vl] /\
    NoDup (all_inputs (us' ++ [ul])) /\
    ready c (us' ++ [ul]) vecs false (replicate n 0) s2 /\
    forall argss,
      session vecs argss s = calls (mkClosure n (Some (inputs ul)) c) argss s2.
Proof.
  intros Hne Hvs.
  assert (Hlens : Forall (fun v => length v = n) vecs)
    by (eapply Forall_impl; [exact Hvs | intros v [_ ?]; assumption]).
  destruct (decode_run n vecs s Hlens) as (us & s1 & D & Hus & Hnd & Hld).
  destruct (proj2 (last_is_Some vecs) Hne) as [vl Hvl].
  apply last_Some in Hvl as [vs Evecs]. subst vecs.
  pose proof Hus as Hus0.
  apply Forall2_app_inv_r in Hus0 as (us' & ul1 & _ & Hul & ->).
  apply Forall2_cons_inv_r in Hul as (ul & ? & _ & Hnil & ->).
  apply Forall2_nil_inv_r in Hnil as ->.
  rewrite last_snoc in D.
  exists us', ul, vs, vl, (length (cells s)),
    (mkStore (objs s1) (cells s ++ [us' ++ [ul]])).
  split; [reflexivity | split; [exact Hnd | split]].
  - repeat split.
    + apply list_lookup_middle. reflexivity.
    + apply (units_for_mono s1); [apply polarity_kept_objs; reflexivity | exact Hus].
    + exact Hld.
  - intros argss. unfold session.
    assert (I : Decoder_init (vs ++ [vl]) s = (inr (mkDecoder (vs ++ [vl]) n), s)).
    { destruct vs as [|v0 vs0]; cbn [app] in *; rewrite Decoder_init_run;
        apply Forall_cons in Hlens as [-> _]; reflexivity. }
    rewrite (bind_run _ _ _ _ _ I), (bind_run _ _ _ _ _ D). reflexivity.
Qed.

(** X12. An invocation with fewer than [vec_length] arguments raises
    [IndexError] (from [args[i]]), at any point of a session: after any
    number of well-formed invocations, and whatever invocations were to
    follow. *)
Theorem session_too_few_arguments (s : store) (vecs argss rest : list (list Z))
    (a : list Z) (n : nat) :
  vecs <> [] ->
  Forall (fun v => bits v /\ length v = n) vecs ->
  Forall (fun a => bits a /\ length a = n) argss ->
  (length a < n)%nat ->
  result (session vecs (argss ++ a :: rest)) s = inl IndexError.
Proof.
  intros Hne Hvs Hargs Hshort.
  destruct (session_ready s vecs n Hne Hvs)
    as (us' & ul & vs' & vl & c & s2 & -> & Hnd & R & Hs).
  destruct (calls_ready n c us' ul vs' vl Hnd Hvs argss false (replicate n 0) s2)
    as (s3 & fl & p & E & R3); auto.
  { apply Forall_replicate. left. reflexivity. }
  { apply length_replicate. }
  destruct (decoder_short n c us' ul (vs' ++ [vl]) fl p a s3 R3) as (s4 & E4 & _).
  { eapply Forall_impl; [exact Hvs | intros v [_ ?]; assumption]. }
  { exact Hshort. }
  unfold result. rewrite Hs.
  rewrite (calls_app_raise _ _ _ _ _ _ rest _ _ E E4). reflexivity.
Qed.

Lemma session_too_few_arguments_witness :
  result (session [[0; 1; 0]; [0; 1; 1]] ([[0; 1; 0]] ++ [0; 1] :: [[0; 1; 1]]))
         empty_store
  = inl IndexError.
Proof.
  apply (session_too_few_arguments empty_store [[0; 1; 0]; [0; 1; 1]]
           [[0; 1; 0]] [[0; 1; 1]] [0; 1] 3).
  - discriminate.
  - closed_list.
  - closed_list.
  - cbn. lia.
Defined.

(** ** What the invocations of a session return *)

Lemma expected_length vecs argss :
  forall flipped prev, length (expected vecs flipped prev argss) = length argss.
Proof.
  induction argss as [|a argss IH]; intros flipped prev; [reflexivity |].
  cbn [expected length]. rewrite IH. reflexivity.
Qed.

Lemma expected_lookup_S vecs argss :
  forall flipped prev k p a,
    argss !! k = Some p -> argss !! S k = Some a ->
    expected vecs flipped prev argss !! S k
    = Some (if decide (a ∈ vecs \/
                       (xorb flipped (Nat.even k) = true /\
                        (2 <= length vecs)%nat /\ head vecs = Some p))
            then 1 else 0).
Proof.
  induction argss as [|a0 argss IH]; intros flipped prev k p a Hp Ha;
    [discriminate Hp |].
  cbn [expected]. destruct k as [|k].
  - cbn in Hp. injection Hp as ->.
    destruct argss as [|a1 argss]; [discriminate Ha |].
    cbn in Ha. injection Ha as ->. cbn [expected].
    destruct flipped; reflexivity.
  - cbn in Hp, Ha.
    change ((?x :: ?l) !! S (S k)) with (l !! S k).
    rewrite (IH (negb flipped) a0 k p a Hp Ha). f_equal.
    apply decide_ext. rewrite Nat.even_succ, <- Nat.negb_even.
    destruct flipped, (Nat.even k); cbn; tauto.
Qed.

(** X13. What each invocation of a session returns. For a Decoder built
    from a non-empty list of bit-vectors of length [n] and invocations on
    bit-vectors of length [n]: no invocation raises; the first returns 1
    exactly on the vectors; the invocation after the [k]-th (counting from
    0) returns 1 on the vectors and also, when [k] is even and there are at
    least two vectors, when the arguments of the [k]-th invocation were the
    first vector. All other results are 0. *)
Theorem session_call_by_call (s : store) (vecs argss : list (list Z)) (n : nat) :
  vecs <> [] ->
  Forall (fun v => bits v /\ length v = n) vecs ->
  Forall (fun a => bits a /\ length a = n) argss ->
  exists rs,
    result (session vecs argss) s = inr rs /\
    length rs = length argss /\
    (forall a, argss !! 0%nat = Some a ->
       rs !! 0%nat = Some (if decide (a ∈ vecs) then 1 else 0)) /\
    (forall k p a, argss !! k = Some p -> argss !! S k = Some a ->
       rs !! S k
       = Some (if decide (a ∈ vecs \/
                          (Nat.even k = true /\ (2 <= length vecs)%nat /\
                           head vecs = Some p))
               then 1 else 0)).
Proof.
  intros Hne Hvs Hargs.
  exists (expected vecs false (replicate n 0) argss).
  split; [apply session_returns; assumption |].
  split; [apply expected_length |]. split.
  - intros a Ha. destruct argss as [|a0 argss]; [discriminate Ha |].
    cbn in Ha. injection Ha as ->. cbn. f_equal.
    apply decide_ext. intuition discriminate.
  - intros k p a Hp Ha.
    rewrite (expected_lookup_S vecs argss false _ k p a Hp Ha). reflexivity.
Qed.

Lemma session_call_by_call_witness :
  exists rs,
    result (session [[0;1;0]; [0;1;1]; [1;0;1]] [[0;1;0]; [0;0;0]; [0;0;0]])
           empty_store = inr rs /\
    length rs = length [[0;1;0]; [0;0;0]; [0;0;0]] /\
    (forall a, [[0;1;0]; [0;0;0]; [0;0;0]] !! 0%nat = Some a ->
       rs !! 0%nat
       = Some (if decide (a ∈ [[0;1;0]; [0;1;1]; [1;0;1]]) then 1 else 0)) /\
    (forall k p a,
       [[0;1;0]; [0;0;0]; [0;0;0]] !! k = Some p ->
       [[0;1;0]; [0;0;0]; [0;0;0]] !! S k = Some a ->
       rs !! S k
       = Some (if decide (a ∈ [[0;1;0]; [0;1;1]; [1;0;1]] \/
                          (Nat.even k = true /\
                           (2 <= length [[0;1;0]; [0;1;1]; [1;0;1]])%nat /\
                           head [[0;1;0]; [0;1;1]; [1;0;1]] = Some p))
               then 1 else 0)).
Proof.
  apply (session_call_by_call empty_store [[0;1;0]; [0;1;1]; [1;0;1]]
           [[0;1;0]; [0;0;0]; [0;0;0]] 3).
  - discriminate.
  - closed_list.
  - closed_list.
Defined.

Lemma expected_lookup_0 vecs argss flipped prev a :
  argss !! 0%nat = Some a ->
  expected vecs flipped prev argss !! 0%nat
  = Some (if decide (a ∈ vecs \/
                     (flipped = true /\ (2 <= length vecs)%nat /\
                      head vecs = Some prev))
          then 1 else 0).
Proof.
  destruct argss as [|a0 argss]; [discriminate |].
  cbn. intros [= ->]. reflexivity.
Qed.

(** On one of the vectors the closure returns 1, whatever its state. *)
Lemma expected_lookup_member vecs argss :
  forall flipped prev k a,
    argss !! k = Some a -> a ∈ vecs ->
    expected vecs flipped prev argss !! k = Some 1.
Proof.
  induction argss as [|a0 argss IH]; intros flipped prev k a Ha Hin;
    [discriminate Ha |].
  destruct k as [|k]; cbn [expected].
  - cbn in Ha |- *. injection Ha as ->.
    rewrite decide_True by (left; exact Hin). reflexivity.
  - cbn in Ha. change ((?x :: ?l) !! S k) with (l !! k).
    apply (IH _ _ k a); assumption.
Qed.

(** X14. The closure has no false negatives: in any session, every
    invocation on one of the vectors returns 1, whatever was invoked
    before. *)
Theorem session_no_false_negative (s : store) (vecs argss : list (list Z))
    (n k : nat) (a : list Z) :
  vecs <> [] ->
  Forall (fun v => bits v /\ length v = n) vecs ->
  Forall (fun a => bits a /\ length a = n) argss ->
  argss !! k = Some a -> a ∈ vecs ->
  exists rs, result (session vecs argss) s = inr rs /\ rs !! k = Some 1.
Proof.
  intros Hne Hvs Hargs Ha Hin.
  exists (expected vecs false (replicate n 0) argss).
  split; [apply session_returns; assumption |].
  apply expected_lookup_member with a; assumption.
Qed.

Lemma session_no_false_negative_witness :
  exists rs,
    result (session [[0;1;0]; [0;1;1]] [[0;1;0]; [1;1;1]; [0;1;1]]) empty_store
    = inr rs /\
    rs !! 2%nat = Some 1.
Proof.
  apply (session_no_false_negative empty_store [[0;1;0]; [0;1;1]]
           [[0;1;0]; [1;1;1]; [0;1;1]] 3 2 [0;1;1]).
  - discriminate.
  - closed_list.
  - closed_list.
  - reflexivity.
  - apply elem_of_cons. right. apply elem_of_cons. left. reflexivity.
Defined.

Lemma expected_single v argss :
  forall flipped prev,
    expected [v] flipped prev argss
    = (fun a => if decide (a = v) then 1 else 0) <$> argss.
Proof.
  induction argss as [|a argss IH]; intros flipped prev; [reflexivity |].
  cbn [expected fmap list_fmap]. rewrite IH. f_equal.
  apply decide_ext. rewrite list_elem_of_singleton. cbn [length].
  split; [intros [H | (_ & H & _)]; [exact H | lia] | intros H; left; exact H].
Qed.

(** X15. A Decoder built from a single bit-vector [v] is exact on every
    invocation of every session: each invocation on a bit-vector of the
    same length returns 1 if it is [v] and 0 if it is not. *)
Theorem session_single_vector_exact (s : store) (v : list Z)
    (argss : list (list Z)) :
  bits v ->
  Forall (fun a => bits a /\ length a = length v) argss ->
  result (session [v] argss) s
  = inr ((fun a => if decide (a = v) then 1 else 0) <$> argss).
Proof.
  intros Bv Hargs.
  rewrite (session_returns s [v] argss (length v)).
  - rewrite expected_single. reflexivity.
  - discriminate.
  - apply Forall_cons. split; [split; [exact Bv | reflexivity] | apply Forall_nil; exact I].
  - exact Hargs.
Qed.

Lemma session_single_vector_exact_witness :
  result (session [[1; 0]] [[1; 0]; [0; 0]; [1; 0]; [1; 1]]) empty_store
  = inr ((fun a => if decide (a = [1; 0]) then 1 else 0)
           <$> [[1; 0]; [0; 0]; [1; 0]; [1; 1]]).
Proof.
  apply (session_single_vector_exact empty_store [1; 0]
           [[1; 0]; [0; 0]; [1; 0]; [1; 1]]).
  - closed_list.
  - closed_list.
Defined.

(** X16. When an invocation is exact after all. In any session, the
    invocation that follows the [k]-th returns 1 exactly on the vectors
    whenever its arguments are those of the [k]-th invocation, and whenever
    the [k]-th invocation returned 0. *)
Theorem session_exact_after (s : store) (vecs argss : list (list Z))
    (n k : nat) (p a : list Z) :
  vecs <> [] ->
  Forall (fun v => bits v /\ length v = n) vecs ->
  Forall (fun a => bits a /\ length a = n) argss ->
  argss !! k = Some p -> argss !! S k = Some a ->
  exists rs,
    result (session vecs argss) s = inr rs /\
    (p = a -> rs !! S k = Some (if decide (a ∈ vecs) then 1 else 0)) /\
    (rs !! k = Some 0 -> rs !! S k = Some (if decide (a ∈ vecs) then 1 else 0)).
Proof.
  intros Hne Hvs Hargs Hp Ha.
  exists (expected vecs false (replicate n 0) argss).
  split; [apply session_returns; assumption |].
  rewrite (expected_lookup_S vecs argss false _ k p a Hp Ha).
  split.
  - intros ->. f_equal. apply decide_ext.
    split; [intros [H | (_ & _ & H)]; [exact H |] | intros H; left; exact H].
    apply head_Some_elem_of. exact H.
  - intros Hzero. f_equal. apply decide_ext.
    split; [intros [H | (_ & _ & H)]; [exact H |] | intros H; left; exact H].
    exfalso. apply head_Some_elem_of in H.
    rewrite (expected_lookup_member vecs argss false _ k p Hp H) in Hzero.
    discriminate Hzero.
Qed.

Lemma session_exact_after_witness :
  exists rs,
    result (session [[0;1;0]; [0;1;1]] [[0;1;0]; [0;1;0]]) empty_store = inr rs /\
    ([0;1;0] = [0;1;0] ->
     rs !! 1%nat = Some (if decide ([0;1;0] ∈ [[0;1;0]; [0;1;1]]) then 1 else 0)) /\
    (rs !! 0%nat = Some 0 ->
     rs !! 1%nat = Some (if decide ([0;1;0] ∈ [[0;1;0]; [0;1;1]]) then 1 else 0)).
Proof.
  apply (session_exact_after empty_store [[0;1;0]; [0;1;1]]
           [[0;1;0]; [0;1;0]] 3 0 [0;1;0] [0;1;0]).
  - discriminate.
  - closed_list.
  - closed_list.
  - reflexivity.
  - reflexivity.
Defined.

(** The results depend on the vectors only through membership, the first
    vector and whether there are at least two. *)
Lemma expected_ext vecs vecs' :
  (forall a, a ∈ vecs <-> a ∈ vecs') ->
  head vecs = head vecs' ->
  ((2 <= length vecs)%nat <-> (2 <= length vecs')%nat) ->
  forall argss flipped prev,
    expected vecs flipped prev argss = expected vecs' flipped prev argss.
Proof.
  intros Hin Hhd Hlen. induction argss as [|a argss IH]; intros flipped prev;
    [reflexivity |].
  cbn [expected]. rewrite IH. f_equal.
  apply decide_ext. rewrite Hin, Hhd, Hlen. reflexivity.
Qed.

(** X17. With at least two vectors, a duplicate changes nothing:
    appending a copy of one of the vectors to the list gives a closure that
    returns the same results in every session, on any stores. *)
Theorem session_duplicate_harmless (s s' : store) (vecs argss : list (list Z))
    (v : list Z) (n : nat) :
  (2 <= length vecs)%nat -> v ∈ vecs ->
  Forall (fun v => bits v /\ length v = n) vecs ->
  Forall (fun a => bits a /\ length a = n) argss ->
  result (session (vecs ++ [v]) argss) s = result (session vecs argss) s'.
Proof.
  intros Hlen Hin Hvs Hargs.
  assert (Hv : bits v /\ length v = n)
    by (rewrite Forall_forall in Hvs; apply Hvs; exact Hin).
  rewrite (session_returns s (vecs ++ [v]) argss n),
          (session_returns s' vecs argss n); try assumption.
  - f_equal. apply expected_ext.
    + intros a. rewrite elem_of_app, list_elem_of_singleton.
      split; [intros [H | ->]; assumption | intros H; left; exact H].
    + destruct vecs; [cbn in Hlen; lia | reflexivity].
    + rewrite length_app. cbn. lia.
  - intros ->. cbn in Hlen. lia.
  - intros H. apply app_eq_nil in H as [_ H]. discriminate H.
  - apply Forall_app. split; [exact Hvs |].
    apply Forall_cons. split; [exact Hv | apply Forall_nil; exact I].
Qed.

Lemma session_duplicate_harmless_witness :
  result (session ([[0;1]; [1;0]] ++ [[0;1]]) [[0;1]; [1;1]]) empty_store
  = result (session [[0;1]; [1;0]] [[0;1]; [1;1]]) empty_store.
Proof.
  apply (session_duplicate_harmless empty_store empty_store
           [[0;1]; [1;0]] [[0;1]; [1;1]] [0;1] 2).
  - cbn. lia.
  - apply elem_of_cons. left. reflexivity.
  - closed_list.
  - closed_list.
Defined.

(** X18. The order of the vectors matters through the first one only: two
    lists of bit-vectors that are permutations of each other and start with
    the same vector give closures that return the same results in every
    session, on any stores. *)
Theorem session_reorder (s s' : store) (vecs vecs' argss : list (list Z))
    (n : nat) :
  vecs ≡ₚ vecs' -> head vecs = head vecs' ->
  vecs <> [] ->
  Forall (fun v => bits v /\ length v = n) vecs ->
  Forall (fun a => bits a /\ length a = n) argss ->
  result (session vecs argss) s = result (session vecs' argss) s'.
Proof.
  intros P Hhd Hne Hvs Hargs.
  rewrite (session_returns s vecs argss n),
          (session_returns s' vecs' argss n); try assumption.
  - f_equal. apply expected_ext.
    + intros a. rewrite P. reflexivity.
    + exact Hhd.
    + rewrite (Permutation_length P). reflexivity.
  - intros ->. apply Permutation_nil_r in P. contradiction.
  - rewrite <- P. exact Hvs.
Qed.

Lemma session_reorder_witness :
  result (session [[0;1;0]; [0;1;1]; [1;0;1]] [[0;1;0]; [0;0;0]]) empty_store
  = result (session [[0;1;0]; [1;0;1]; [0;1;1]] [[0;1;0]; [0;0;0]]) empty_store.
Proof.
  apply (session_reorder empty_store empty_store
           [[0;1;0]; [0;1;1]; [1;0;1]] [[0;1;0]; [1;0;1]; [0;1;1]]
           [[0;1;0]; [0;0;0]] 3).
  - apply perm_skip. apply perm_swap.
  - reflexivity.
  - discriminate.
  - closed_list.
  - closed_list.
Defined.

(** ** A decoder unit on arguments that are not bits *)

Lemma existsb_blocking_presented v :
  forall a,
    bits v -> length a = length v ->
    existsb blocking (presented v a) = false
    <-> Forall2 (fun vi ai => vi = 0 -> ai = 0) v a.
Proof.
  induction v as [|vi v IH]; intros [|ai a] Bv Hlen; try discriminate Hlen.
  - split; [constructor | reflexivity].
  - apply Forall_cons in Bv as [Bvi Bv]. injection Hlen as Hlen.
    cbn [presented zip_with existsb]. fold (presented v a).
    rewrite orb_false_iff, (IH a Bv Hlen), Forall2_cons. unfold blocking.
    cbn [excitatory value].
    destruct Bvi as [-> | ->], (Z.eqb_spec ai 0); cbn;
      intuition (congruence || lia).
Qed.

Lemma excitation_presented v :
  forall a,
    bits v -> length a = length v ->
    excitation (presented v a) = sum (zip_with Z.mul v a).
Proof.
  induction v as [|vi v IH]; intros [|ai a] Bv Hlen; try discriminate Hlen.
  - reflexivity.
  - apply Forall_cons in Bv as [Bvi Bv]. injection Hlen as Hlen.
    cbn [presented zip_with]. fold (presented v a).
    rewrite excitation_cons, sum_cons, (IH a Bv Hlen). cbn [excitatory value].
    destruct Bvi as [-> | ->]; cbn; lia.
Qed.

(** X19. Arguments are not checked to be bits. The decoder unit of a
    bit-vector [v], triggered with integers [a], one per position, activates
    to 1 exactly when [a] is 0 wherever [v] is 0 and the values of [a] where
    [v] is 1 add up to at least the number of 1s of [v]; so the unit of
    [(1,1)] fires on [(2,0)]. *)
Theorem decoder_unit_on_integers (s : store) (v a : list Z) :
  bits v -> length a = length v ->
  exists r,
    result (u <- decoder_unit (length v) v ;;
            trigger_inputs (length v) (inputs u) a ;;
            activate u) s = inr r /\
    bit r /\
    (r = 1 <-> Forall2 (fun vi ai => vi = 0 -> ai = 0) v a /\
               sum v <= sum (zip_with Z.mul v a)).
Proof.
  intros Bv Hlen.
  exists (activation (sum v) 0 (presented v a)). split.
  - unfold result.
    rewrite (bind_run _ _ _ _ _ (decoder_unit_run v s)).
    pose proof (decoder_unit_unit_for v (objs s) (cells s)) as U.
    destruct (present_unit _ _ _ a U Hlen) as [T H].
    rewrite (bind_run _ _ _ _ _ T).
    rewrite (activate_run _ _ _ H). reflexivity.
  - unfold activation.
    rewrite <- (existsb_blocking_presented v a Bv Hlen),
            <- (excitation_presented v a Bv Hlen).
    destruct (existsb blocking (presented v a)).
    + split; [left; reflexivity |].
      split; [discriminate | intros [H _]; discriminate H].
    + destruct (0 + excitation (presented v a) >=? sum v) eqn:C.
      * split; [right; reflexivity |].
        split; [intros _; split; [reflexivity | lia] | reflexivity].
      * split; [left; reflexivity |].
        split; [discriminate | intros [_ H]; lia].
Qed.

Lemma decoder_unit_on_integers_witness :
  exists r,
    result (u <- decoder_unit 2 [1; 1] ;;
            trigger_inputs 2 (inputs u) [2; 0] ;;
            activate u) empty_store = inr r /\
    bit r /\
    (r = 1 <-> Forall2 (fun vi ai => vi = 0 -> ai = 0) [1; 1] [2; 0] /\
               sum [1; 1] <= sum (zip_with Z.mul [1; 1] [2; 0])).
Proof.
  apply (decoder_unit_on_integers empty_store [1; 1] [2; 0]).
  - closed_list.
  - reflexivity.
Defined.

(** ** What an invocation leaves alone *)

Lemma extends_but_refl refs s : extends_but refs s s.
Proof. repeat split; auto. Qed.

Lemma extends_but_trans refs s1 s2 s3 :
  extends_but refs s1 s2 -> extends_but refs s2 s3 -> extends_but refs s1 s3.
Proof.
  intros (L1 & P1 & F1) (L2 & P2 & F2). repeat split.
  - lia.
  - intros r Hr. rewrite P2 by lia. apply P1. exact Hr.
  - intros r Hn Hr. rewrite F2 by (auto; lia). apply F1; assumption.
Qed.

Lemma extends_but_weaken refs refs' s s' :
  (forall r, r ∈ refs -> r ∈ refs') ->
  extends_but refs s s' -> extends_but refs' s s'.
Proof.
  intros Hsub (L & P & F). repeat split; [exact L | exact P |].
  intros r Hn Hr. apply F; [| exact Hr]. intros Hin. apply Hn, Hsub, Hin.
Qed.

Lemma frame_refl refs s : frame refs s s.
Proof. split; [apply extends_but_refl | reflexivity]. Qed.

Lemma frame_trans refs s1 s2 s3 :
  frame refs s1 s2 -> frame refs s2 s3 -> frame refs s1 s3.
Proof.
  intros [E1 C1] [E2 C2]. split; [eapply extends_but_trans; eassumption |].
  congruence.
Qed.

Lemma frame_weaken refs refs' s s' :
  (forall r, r ∈ refs -> r ∈ refs') -> frame refs s s' -> frame refs' s s'.
Proof.
  intros Hsub [E C]. split; [| exact C].
  exact (extends_but_weaken _ _ _ _ Hsub E).
Qed.

(** The store a sequence of two computations leaves, whether the first one
    returns or raises. *)
Lemma bind_frame {A B} refs (m : Py A) (k : A -> Py B) s :
  frame refs s (snd (m s)) ->
  (forall x s1, m s = (inr x, s1) -> frame refs s1 (snd (k x s1))) ->
  frame refs s (snd (bind m k s)).
Proof.
  intros Hm Hk. unfold bind.
  destruct (m s) as [[e | x] s1] eqn:E; cbn [snd] in *; [exact Hm |].
  eapply frame_trans; [exact Hm | apply Hk; reflexivity].
Qed.

Lemma for_each_frame {A} refs (l : list A) (body : A -> Py unit) :
  (forall x s, x ∈ l -> frame refs s (snd (body x s))) ->
  forall s, frame refs s (snd (for_each l body s)).
Proof.
  induction l as [|x l IH]; intros Hb s; [apply frame_refl |].
  cbn [for_each]. apply bind_frame.
  - apply Hb; left.
  - intros _ s1 _. apply IH. intros y s0 Hy. apply Hb; right; exact Hy.
Qed.

Lemma index_inv {A} (l : list A) i s x s1 :
  index l i s = (inr x, s1) -> l !! i = Some x /\ s1 = s.
Proof.
  unfold index. destruct (l !! i) as [y|]; cbn; intros H;
    [injection H as -> ->; auto | discriminate H].
Qed.

Lemma index_snd {A} (l : list A) i s : snd (index l i s) = s.
Proof. unfold index. destruct (l !! i); reflexivity. Qed.

Lemma trigger_frame refs r v s :
  r ∈ refs -> frame refs s (snd (trigger r v s)).
Proof.
  intros Hin. unfold trigger.
  destruct (objs s !! r) as [o|] eqn:Ho; cbn [snd]; [| apply frame_refl].
  split; [| reflexivity]. repeat split; cbn [objs].
  - rewrite length_insert. lia.
  - intros r' Hr'. unfold polarity. cbn [objs].
    rewrite list_lookup_insert. case_decide as D; [| reflexivity].
    destruct D as [<- _]. rewrite Ho. reflexivity.
  - intros r' Hn Hr'. apply list_lookup_insert_ne. intros <-. contradiction.
Qed.

(** The loop [for i in range(n): inputs[i].trigger(args[i])] changes the
    objects [inputs] at most. *)
Lemma trigger_inputs_frame n refs args s :
  frame refs s (snd (trigger_inputs n refs args s)).
Proof.
  apply for_each_frame. intros i s0 _.
  apply bind_frame; [rewrite index_snd; apply frame_refl |].
  intros r s1 Hr. apply index_inv in Hr as [Hr ->].
  apply bind_frame; [rewrite index_snd; apply frame_refl |].
  intros a s1 _. apply trigger_frame.
  apply list_elem_of_lookup. eauto.
Qed.

Lemma OR_frame refs x1 x2 s : frame refs s (snd (OR x1 x2 s)).
Proof.
  rewrite OR_run. cbn [snd]. split; [| reflexivity]. repeat split; cbn [objs].
  - rewrite length_app. lia.
  - intros r Hr. unfold polarity. cbn [objs]. rewrite lookup_app_l by exact Hr.
    reflexivity.
  - intros r _ Hr. apply lookup_app_l. exact Hr.
Qed.

Lemma activate_frame refs u s : frame refs s (snd (activate u s)).
Proof. unfold activate. rewrite activate_loop_snd. apply frame_refl. Qed.

Lemma decoder_loop_frame n a refs units :
  (forall u r, u ∈ units -> r ∈ inputs u -> r ∈ refs) ->
  forall or_arg s, frame refs s (snd (decoder_loop n a units or_arg s)).
Proof.
  induction units as [|u units IH]; intros Hsub or_arg s; [apply frame_refl |].
  cbn [decoder_loop]. apply bind_frame.
  - apply (frame_weaken (inputs u)); [| apply trigger_inputs_frame].
    intros r Hr. apply (Hsub u); [left | exact Hr].
  - intros _ s1 _. apply bind_frame; [apply activate_frame |].
    intros val s2 _. apply bind_frame; [apply OR_frame |].
    intros or_arg' s3 _. apply IH.
    intros u' r Hu' Hr. apply (Hsub u'); [right; exact Hu' | exact Hr].
Qed.

Lemma elem_of_all_inputs r us :
  r ∈ all_inputs us <-> exists u, u ∈ us /\ r ∈ inputs u.
Proof.
  unfold all_inputs. rewrite list_elem_of_In, in_flat_map.
  split; intros (u & Hu & Hr); exists u;
    rewrite ?list_elem_of_In in *; auto.
Qed.

(** What an invocation leaves alone, whether it returns or raises. *)
Lemma decoder_frame (f : closure) (a : list Z) (s : store)
    (refs : list nat) (units : list MPNeuron) :
  cl_inputs f = Some refs ->
  cells s !! cl_decoder_units f = Some units ->
  extends_but (refs ++ all_inputs units) s (snd (decoder f a s)) /\
  (cells (snd (decoder f a s)) = cells s \/
   cells (snd (decoder f a s))
   = <[cl_decoder_units f := reverse units]> (cells s)).
Proof.
  intros Hrefs Hc.
  set (R := refs ++ all_inputs units).
  remember (snd (decoder f a s)) as s' eqn:Es.
  unfold decoder in Es.
  (* the first loop *)
  assert (F1 : forall s0,
             frame R s0
               (snd (for_each (range (cl_vec_length f))
                       (fun i => inputs <- var_inputs f ;; r <- index inputs i ;;
                                 x <- index a i ;; trigger r x) s0))).
  { apply for_each_frame. intros i s0 _.
    unfold var_inputs. rewrite Hrefs.
    apply bind_frame; [apply frame_refl |].
    intros l s1 [= <- <-].
    apply (frame_weaken refs); [intros r Hr; apply elem_of_app; left; exact Hr |].
    apply bind_frame; [rewrite index_snd; apply frame_refl |].
    intros r s1 Hr. apply index_inv in Hr as [Hr ->].
    apply bind_frame; [rewrite index_snd; apply frame_refl |].
    intros x s1 _. apply trigger_frame. apply list_elem_of_lookup. eauto. }
  specialize (F1 s). unfold bind at 1 in Es.
  destruct (for_each _ _ s) as [[e | []] s1] eqn:E1; cbn [snd] in Es, F1;
    destruct F1 as [F1 C1].
  { subst s'. split; [exact F1 | left; exact C1]. }
  (* the reversal *)
  unfold bind at 1 in Es. unfold reverse_cell at 1 in Es.
  rewrite C1, Hc in Es.
  set (s2 := mkStore (objs s1) (<[cl_decoder_units f := reverse units]> (cells s)))
    in Es.
  assert (F2 : extends_but R s s2) by exact F1.
  assert (G : get_cell (cl_decoder_units f) s2 = (inr (reverse units), s2)).
  { unfold get_cell. cbn [cells s2].
    rewrite list_lookup_insert_eq by (apply lookup_lt_is_Some; eauto).
    reflexivity. }
  rewrite (bind_run _ _ _ _ _ G) in Es.
  (* the rest changes objects only *)
  assert (F3 : frame R s2
                 (snd ((u0 <- index (reverse units) 0 ;;
                        or_arg <- activate u0 ;;
                        decoder_loop (cl_vec_length f) a (reverse units) or_arg)
                         s2))).
  { apply bind_frame; [rewrite index_snd; apply frame_refl |].
    intros u0 s3 _. apply bind_frame; [apply activate_frame |].
    intros or_arg s4 _. apply decoder_loop_frame.
    intros u r Hu Hr. apply elem_of_app. right.
    apply elem_of_all_inputs. exists u. split; [| exact Hr].
    apply elem_of_reverse. exact Hu. }
  rewrite <- Es in F3. destruct F3 as [F3 C3]. split.
  - eapply extends_but_trans; [exact F2 | exact F3].
  - right. rewrite C3. reflexivity.
Qed.

(** X20. What an invocation never touches. An invocation of a closure,
    whether it returns or raises, removes no object and changes no
    polarity; it changes no object other than the inputs of the closure's
    own units (and the inputs its variable [inputs] is bound to); it
    reverses the closure's own list of units or leaves it as it was, and
    changes no other list. *)
Theorem decoder_touches_only (f : closure) (a : list Z) (s : store)
    (refs : list nat) (units : list MPNeuron) :
  cl_inputs f = Some refs ->
  cells s !! cl_decoder_units f = Some units ->
  (forall r o, objs s !! r = Some o ->
     exists o', objs (snd (decoder f a s)) !! r = Some o' /\
                excitatory o' = excitatory o) /\
  (forall r o, objs s !! r = Some o ->
     r ∉ refs -> (forall u, u ∈ units -> r ∉ inputs u) ->
     objs (snd (decoder f a s)) !! r = Some o) /\
  (cells (snd (decoder f a s)) !! cl_decoder_units f = Some units \/
   cells (snd (decoder f a s)) !! cl_decoder_units f = Some (reverse units)) /\
  (forall c l, c <> cl_decoder_units f -> cells s !! c = Some l ->
     cells (snd (decoder f a s)) !! c = Some l).
Proof.
  intros Hrefs Hc.
  destruct (decoder_frame f a s refs units Hrefs Hc) as ((_ & P & F) & C).
  split; [| split; [| split]].
  - intros r o Ho. pose proof (lookup_lt_Some _ _ _ Ho) as Hr.
    specialize (P r Hr). unfold polarity in P. rewrite Ho in P.
    destruct (objs (snd (decoder f a s)) !! r) as [o'|]; [| discriminate P].
    exists o'. split; [reflexivity |]. cbn in P. congruence.
  - intros r o Ho Hn Hu. rewrite F; [exact Ho | | exact (lookup_lt_Some _ _ _ Ho)].
    intros Hin. apply elem_of_app in Hin as [Hin | Hin]; [contradiction |].
    apply elem_of_all_inputs in Hin as (u & Hu' & Hr). exact (Hu u Hu' Hr).
  - destruct C as [-> | ->]; [left; exact Hc | right].
    apply list_lookup_insert_eq. exact (lookup_lt_Some _ _ _ Hc).
  - intros c l Hne Hl. destruct C as [-> | ->]; [exact Hl |].
    rewrite list_lookup_insert_ne by congruence. exact Hl.
Qed.

Lemma decoder_touches_only_witness :
  objs (snd (decoder (mkClosure 2 (Some [0; 1]%nat) 0) [1; 0]
               (mkStore [mkMPInput true 0; mkMPInput false 0; mkMPInput true 1]
                        [[mkMPNeuron 1 [0; 1]%nat]]))) !! 2%nat
  = Some (mkMPInput true 1).
Proof.
  destruct (decoder_touches_only (mkClosure 2 (Some [0; 1]%nat) 0) [1; 0]
              (mkStore [mkMPInput true 0; mkMPInput false 0; mkMPInput true 1]
                       [[mkMPNeuron 1 [0; 1]%nat]])
              [0; 1]%nat [mkMPNeuron 1 [0; 1]%nat] eq_refl eq_refl)
    as (_ & H & _).
  apply H.
  - reflexivity.
  - intros Hin. apply elem_of_cons in Hin as [Hin | Hin]; [discriminate Hin |].
    apply elem_of_cons in Hin as [Hin | Hin]; [discriminate Hin | inversion Hin].
  - intros u Hu Hin. apply list_elem_of_singleton in Hu. subst u. cbn in Hin.
    apply elem_of_cons in Hin as [Hin | Hin]; [discriminate Hin |].
    apply elem_of_cons in Hin as [Hin | Hin]; [discriminate Hin | inversion Hin].
Defined.

(** ** Two closures used in turn *)

Lemma extends_polarity_kept refs s s' :
  extends_but refs s s' -> polarity_kept s s'.
Proof.
  intros (_ & P & _) r b Hb. rewrite P; [exact Hb |].
  unfold polarity in Hb. apply lookup_lt_is_Some.
  destruct (objs s !! r); [eexists; reflexivity | discriminate Hb].
Qed.

(** A closure stays ready when the store changes on other objects and
    other lists only. *)
Lemma ready_framed refs c us vecs flipped prev s s' :
  ready c us vecs flipped prev s ->
  extends_but refs s s' ->
  cells s' !! c = cells s !! c ->
  (forall r, r ∈ all_inputs us -> r ∉ refs) ->
  ready c us vecs flipped prev s'.
Proof.
  intros (Hc & Hus & Hld) E C Hdisj. repeat split.
  - rewrite C. exact Hc.
  - exact (units_for_mono _ _ _ _ (extends_polarity_kept _ _ _ E) Hus).
  - unfold loaded in *. apply Forall2_same_length_lookup.
    split; [exact (Forall2_length _ _ _ Hld) |].
    intros i u v Hu Hv.
    pose proof (Forall2_lookup_lr _ _ _ _ _ _ Hld Hu Hv) as H.
    apply (held_transfer s); [exact H |].
    intros r Hr. destruct E as (_ & _ & F). apply F.
    + apply Hdisj. apply elem_of_all_inputs. exists u.
      split; [apply list_elem_of_lookup; eauto | exact Hr].
    + pose proof (Forall2_lookup_lr _ _ _ _ _ _ Hus Hu Hv) as U.
      pose proof (unit_for_valid _ _ _ U) as Hval.
      rewrite Forall_forall in Hval. exact (Hval r Hr).
Qed.

(** What [decode] returns and the store it leaves, in full. *)
Lemma decode_run_ext n vecs s :
  Forall (fun v => length v = n) vecs ->
  exists us tail,
    let s' := mkStore (objs s ++ tail) (cells s ++ [us]) in
    decode (mkDecoder vecs n) s
    = (inr (mkClosure n
              (match last us with Some u => Some (inputs u) | None => None end)
              (length (cells s))),
       s') /\
    Forall2 (unit_for s') us vecs /\
    all_inputs us = seq (length (objs s)) (length tail) /\
    loaded s' us vecs (replicate n 0).
Proof.
  intros Hn.
  destruct (decode_loop_run n vecs [] None s Hn) as (us & tail & E & Hus & Hall & Hld).
  cbn zeta in E, Hus, Hld. exists us, tail. cbn zeta.
  split; [| split; [| split; [exact Hall |]]].
  - unfold decode. cbn [vec_length vectors].
    rewrite (bind_run _ _ _ _ _ E). reflexivity.
  - apply (units_for_mono (mkStore (objs s ++ tail) (cells s)));
      [apply polarity_kept_objs; reflexivity | exact Hus].
  - exact Hld.
Qed.

Section TwoClosures.

(** Two closures [f] and [g] in one store, each as in section [Closure],
    on different lists and with no input in common. *)
Variables (n1 c1 : nat) (us1 : list MPNeuron) (ul1 : MPNeuron).
Variables (vs1 : list (list Z)) (vl1 : list Z).
Variables (n2 c2 : nat) (us2 : list MPNeuron) (ul2 : MPNeuron).
Variables (vs2 : list (list Z)) (vl2 : list Z).
Hypothesis distinct1 : NoDup (all_inputs (us1 ++ [ul1])).
Hypothesis distinct2 : NoDup (all_inputs (us2 ++ [ul2])).
Hypothesis well_formed1 : Forall (fun v => bits v /\ length v = n1) (vs1 ++ [vl1]).
Hypothesis well_formed2 : Forall (fun v => bits v /\ length v = n2) (vs2 ++ [vl2]).
Hypothesis other_list : c1 <> c2.
Hypothesis apart :
  forall r, r ∈ all_inputs (us1 ++ [ul1]) -> r ∉ all_inputs (us2 ++ [ul2]).

(** The objects an invocation may change are inputs of the closure's
    units. *)
Lemma touched_own (us : list MPNeuron) (ul : MPNeuron) (flipped : bool) r :
  r ∈ inputs ul ++ all_inputs (if flipped then reverse (us ++ [ul]) else us ++ [ul]) ->
  r ∈ all_inputs (us ++ [ul]).
Proof.
  intros Hin. apply elem_of_app in Hin as [Hin | Hin].
  - rewrite all_inputs_app. apply elem_of_app. right.
    cbn. rewrite app_nil_r. exact Hin.
  - destruct flipped; [rewrite all_inputs_reverse in Hin |]; exact Hin.
Qed.

(** One invocation of [f] leaves [g] ready, and conversely. *)
Lemma decoder_run_first fl1 p1 fl2 p2 a s :
  ready c1 (us1 ++ [ul1]) (vs1 ++ [vl1]) fl1 p1 s ->
  ready c2 (us2 ++ [ul2]) (vs2 ++ [vl2]) fl2 p2 s ->
  bits p1 -> length p1 = n1 -> bits a -> length a = n1 ->
  exists s',
    decoder (mkClosure n1 (Some (inputs ul1)) c1) a s
    = (inr (if decide (a ∈ vs1 ++ [vl1] \/
                       (fl1 = true /\ (2 <= length (vs1 ++ [vl1]))%nat /\
                        head (vs1 ++ [vl1]) = Some p1))
            then 1 else 0), s') /\
    ready c1 (us1 ++ [ul1]) (vs1 ++ [vl1]) (negb fl1) a s' /\
    ready c2 (us2 ++ [ul2]) (vs2 ++ [vl2]) fl2 p2 s'.
Proof.
  intros R1 R2 Bp Lp Ba La.
  destruct (decoder_run n1 c1 us1 ul1 vs1 vl1 distinct1 well_formed1
              fl1 p1 a s R1 Bp Lp Ba La) as (s' & E & R1').
  exists s'. split; [exact E | split; [exact R1' |]].
  destruct R1 as (Hc1 & _ & _).
  destruct (decoder_frame (mkClosure n1 (Some (inputs ul1)) c1) a s _ _
              eq_refl Hc1) as [F C].
  rewrite E in F, C. cbn [snd cl_decoder_units] in F, C.
  apply (ready_framed _ _ _ _ _ _ s s' R2 F).
  - destruct C as [-> | ->]; [reflexivity |].
    apply list_lookup_insert_ne. exact other_list.
  - intros r Hr Hin. apply touched_own in Hin. exact (apart r Hin Hr).
Qed.

Lemma decoder_run_second fl1 p1 fl2 p2 a s :
  ready c1 (us1 ++ [ul1]) (vs1 ++ [vl1]) fl1 p1 s ->
  ready c2 (us2 ++ [ul2]) (vs2 ++ [vl2]) fl2 p2 s ->
  bits p2 -> length p2 = n2 -> bits a -> length a = n2 ->
  exists s',
    decoder (mkClosure n2 (Some (inputs ul2)) c2) a s
    = (inr (if decide (a ∈ vs2 ++ [vl2] \/
                       (fl2 = true /\ (2 <= length (vs2 ++ [vl2]))%nat /\
                        head (vs2 ++ [vl2]) = Some p2))
            then 1 else 0), s') /\
    ready c1 (us1 ++ [ul1]) (vs1 ++ [vl1]) fl1 p1 s' /\
    ready c2 (us2 ++ [ul2]) (vs2 ++ [vl2]) (negb fl2) a s'.
Proof.
  intros R1 R2 Bp Lp Ba La.
  destruct (decoder_run n2 c2 us2 ul2 vs2 vl2 distinct2 well_formed2
              fl2 p2 a s R2 Bp Lp Ba La) as (s' & E & R2').
  exists s'. split; [exact E | split; [| exact R2']].
  destruct R2 as (Hc2 & _ & _).
  destruct (decoder_frame (mkClosure n2 (Some (inputs ul2)) c2) a s _ _
              eq_refl Hc2) as [F C].
  rewrite E in F, C. cbn [snd cl_decoder_units] in F, C.
  apply (ready_framed _ _ _ _ _ _ s s' R1 F).
  - destruct C as [-> | ->]; [reflexivity |].
    apply list_lookup_insert_ne. congruence.
  - intros r Hr Hin. apply touched_own in Hin. exact (apart r Hr Hin).
Qed.

(** Any schedule of invocations: each closure returns what it returns in
    a sequence of invocations of its own. *)
Lemma calls2_run sched :
  forall fl1 p1 fl2 p2 s,
    ready c1 (us1 ++ [ul1]) (vs1 ++ [vl1]) fl1 p1 s ->
    ready c2 (us2 ++ [ul2]) (vs2 ++ [vl2]) fl2 p2 s ->
    bits p1 -> length p1 = n1 -> bits p2 -> length p2 = n2 ->
    Forall (fun x : bool * list Z =>
              bits (snd x) /\ length (snd x) = if fst x then n1 else n2) sched ->
    exists rs s',
      calls2 (mkClosure n1 (Some (inputs ul1)) c1)
             (mkClosure n2 (Some (inputs ul2)) c2) sched s = (inr rs, s') /\
      results_of true sched rs
      = expected (vs1 ++ [vl1]) fl1 p1 (args_of true sched) /\
      results_of false sched rs
      = expected (vs2 ++ [vl2]) fl2 p2 (args_of false sched).
Proof.
  induction sched as [|[b a] sched IH];
    intros fl1 p1 fl2 p2 s R1 R2 Bp1 Lp1 Bp2 Lp2 Hs.
  - exists [], s. repeat split.
  - apply Forall_cons in Hs as [[Ba La] Hs]. cbn [fst snd] in Ba, La.
    cbn [calls2]. destruct b.
    + destruct (decoder_run_first fl1 p1 fl2 p2 a s R1 R2 Bp1 Lp1 Ba La)
        as (s1 & E & R1' & R2').
      destruct (IH (negb fl1) a fl2 p2 s1 R1' R2' Ba La Bp2 Lp2 Hs)
        as (rs & s' & E' & H1 & H2).
      eexists _, s'. split.
      * rewrite (bind_run _ _ _ _ _ E), (bind_run _ _ _ _ _ E'). reflexivity.
      * cbn [results_of args_of Bool.eqb expected]. rewrite H1, H2.
        split; reflexivity.
    + destruct (decoder_run_second fl1 p1 fl2 p2 a s R1 R2 Bp2 Lp2 Ba La)
        as (s1 & E & R1' & R2').
      destruct (IH fl1 p1 (negb fl2) a s1 R1' R2' Bp1 Lp1 Ba La Hs)
        as (rs & s' & E' & H1 & H2).
      eexists _, s'. split.
      * rewrite (bind_run _ _ _ _ _ E), (bind_run _ _ _ _ _ E'). reflexivity.
      * cbn [results_of args_of Bool.eqb expected]. rewrite H1, H2.
        split; reflexivity.
Qed.

End TwoClosures.

Lemma calls2_length f g sched :
  forall s rs s', calls2 f g sched s = (inr rs, s') -> length rs = length sched.
Proof.
  induction sched as [|[b a] sched IH]; intros s rs s' E.
  - cbn in E. injection E as <- _. reflexivity.
  - cbn [calls2] in E. unfold bind in E.
    destruct (decoder _ a s) as [[e | r] s1]; [discriminate E |].
    destruct (calls2 f g sched s1) as [[e | rs1] s2] eqn:E1; [discriminate E |].
    cbn in E. injection E as <- _. cbn [length]. f_equal. exact (IH _ _ _ E1).
Qed.

Lemma args_of_valid (b : bool) (n1 n2 : nat) (sched : list (bool * list Z)) :
  Forall (fun x : bool * list Z =>
            bits (snd x) /\ length (snd x) = if fst x then n1 else n2) sched ->
  Forall (fun a => bits a /\ length a = if b then n1 else n2) (args_of b sched).
Proof.
  induction 1 as [|[b' a] sched [Ba La] _ IH]; [constructor |].
  cbn [args_of]. cbn [fst snd] in Ba, La.
  destruct b', b; cbn [Bool.eqb]; try exact IH;
    (apply Forall_cons; split; [split; assumption | exact IH]).
Qed.

(** X21. Two closures do not interfere. With [f] and [g] built by two
    calls of [decode] (on the same or on different non-empty lists of
    bit-vectors) and invoked in any order on well-formed arguments, no
    invocation raises and each closure returns exactly what it returns in
    a session of its own with the same arguments: the invocations of the
    other closure in between change nothing. *)
Theorem closures_independent (s s1 s2 : store) (vecs1 vecs2 : list (list Z))
    (sched : list (bool * list Z)) (n1 n2 : nat) :
  vecs1 <> [] -> vecs2 <> [] ->
  Forall (fun v => bits v /\ length v = n1) vecs1 ->
  Forall (fun v => bits v /\ length v = n2) vecs2 ->
  Forall (fun x : bool * list Z =>
            bits (snd x) /\ length (snd x) = if fst x then n1 else n2) sched ->
  exists rs,
    result (session2 vecs1 vecs2 sched) s = inr rs /\
    length rs = length sched /\
    inr (results_of true sched rs)
    = result (session vecs1 (args_of true sched)) s1 /\
    inr (results_of false sched rs)
    = result (session vecs2 (args_of false sched)) s2.
Proof.
  intros Hne1 Hne2 Hvs1 Hvs2 Hs.
  assert (Hl1 : Forall (fun v => length v = n1) vecs1)
    by (eapply Forall_impl; [exact Hvs1 | intros v [_ ?]; assumption]).
  assert (Hl2 : Forall (fun v => length v = n2) vecs2)
    by (eapply Forall_impl; [exact Hvs2 | intros v [_ ?]; assumption]).
  (* the first closure *)
  destruct (decode_run_ext n1 vecs1 s Hl1) as (us1 & tail1 & D1 & Hus1 & Hall1 & Hld1).
  cbn zeta in D1, Hus1, Hld1.
  set (sA := mkStore (objs s ++ tail1) (cells s ++ [us1])) in *.
  (* the second closure *)
  destruct (decode_run_ext n2 vecs2 sA Hl2) as (us2 & tail2 & D2 & Hus2 & Hall2 & Hld2).
  cbn zeta in D2, Hus2, Hld2.
  set (sB := mkStore (objs sA ++ tail2) (cells sA ++ [us2])) in *.
  assert (K : polarity_kept sA sB) by apply (polarity_kept_app sA).
  (* their last units *)
  destruct (proj2 (last_is_Some vecs1) Hne1) as [vl1 Hvl1].
  apply last_Some in Hvl1 as [vs1 ->].
  destruct (proj2 (last_is_Some vecs2) Hne2) as [vl2 Hvl2].
  apply last_Some in Hvl2 as [vs2 ->].
  pose proof Hus1 as Hus1'.
  apply Forall2_app_inv_r in Hus1' as (us1' & x1 & _ & Hx1 & ->).
  apply Forall2_cons_inv_r in Hx1 as (ul1 & ? & _ & Hnil & ->).
  apply Forall2_nil_inv_r in Hnil as ->.
  pose proof Hus2 as Hus2'.
  apply Forall2_app_inv_r in Hus2' as (us2' & x2 & _ & Hx2 & ->).
  apply Forall2_cons_inv_r in Hx2 as (ul2 & ? & _ & Hnil & ->).
  apply Forall2_nil_inv_r in Hnil as ->.
  rewrite last_snoc in D1, D2.
  (* both are ready *)
  assert (R1 : ready (length (cells s)) (us1' ++ [ul1]) (vs1 ++ [vl1]) false
                 (replicate n1 0) sB).
  { repeat split.
    - cbn [cells sB sA]. apply lookup_app_l_Some, list_lookup_middle. reflexivity.
    - exact (units_for_mono _ _ _ _ K Hus1).
    - eapply Forall2_impl; [exact Hld1 |]. intros u v H.
      apply (held_app sA). exact H. }
  assert (R2 : ready (length (cells sA)) (us2' ++ [ul2]) (vs2 ++ [vl2]) false
                 (replicate n2 0) sB).
  { repeat split; [| exact Hus2 | exact Hld2].
    cbn [cells sB]. apply list_lookup_middle. reflexivity. }
  destruct (calls2_run n1 (length (cells s)) us1' ul1 vs1 vl1
              n2 (length (cells sA)) us2' ul2 vs2 vl2) with
    (sched := sched) (fl1 := false) (p1 := replicate n1 0)
    (fl2 := false) (p2 := replicate n2 0) (s := sB)
    as (rs & s' & E & H1 & H2); try assumption.
  - rewrite Hall1. apply NoDup_seq.
  - rewrite Hall2. apply NoDup_seq.
  - cbn [cells sA]. rewrite length_app. cbn. lia.
  - intros r Hr1 Hr2. rewrite Hall1 in Hr1. rewrite Hall2 in Hr2.
    apply elem_of_seq in Hr1, Hr2. cbn [objs sA] in Hr2.
    rewrite length_app in Hr2. lia.
  - apply Forall_replicate. left. reflexivity.
  - apply length_replicate.
  - apply Forall_replicate. left. reflexivity.
  - apply length_replicate.
  - exists rs. split; [| split; [exact (calls2_length _ _ _ _ _ _ E) |]].
    + unfold result, session2.
      assert (I1 : Decoder_init (vs1 ++ [vl1]) s
                   = (inr (mkDecoder (vs1 ++ [vl1]) n1), s)).
      { destruct vs1 as [|v0 vs0]; cbn [app] in *; rewrite Decoder_init_run;
          apply Forall_cons in Hl1 as [-> _]; reflexivity. }
      assert (I2 : Decoder_init (vs2 ++ [vl2]) sA
                   = (inr (mkDecoder (vs2 ++ [vl2]) n2), sA)).
      { destruct vs2 as [|v0 vs0]; cbn [app] in *; rewrite Decoder_init_run;
          apply Forall_cons in Hl2 as [-> _]; reflexivity. }
      rewrite (bind_run _ _ _ _ _ I1), (bind_run _ _ _ _ _ D1).
      rewrite (bind_run _ _ _ _ _ I2), (bind_run _ _ _ _ _ D2).
      rewrite E. reflexivity.
    + rewrite H1, H2.
      rewrite (session_returns s1 (vs1 ++ [vl1]) (args_of true sched) n1),
              (session_returns s2 (vs2 ++ [vl2]) (args_of false sched) n2);
        try assumption.
      * split; reflexivity.
      * exact (args_of_valid false n1 n2 sched Hs).
      * exact (args_of_valid true n1 n2 sched Hs).
Qed.

Lemma closures_independent_witness :
  exists rs,
    result (session2 [[0;1]; [1;0]] [[1;1;0]]
              [(true, [0;1]); (false, [1;1;0]); (true, [0;0]); (false, [0;0;0])])
           empty_store = inr rs /\
    length rs
    = length [(true, [0;1]); (false, [1;1;0]); (true, [0;0]); (false, [0;0;0])] /\
    inr (results_of true
           [(true, [0;1]); (false, [1;1;0]); (true, [0;0]); (false, [0;0;0])] rs)
    = result (session [[0;1]; [1;0]]
                (args_of true
                   [(true, [0;1]); (false, [1;1;0]); (true, [0;0]);
                    (false, [0;0;0])])) empty_store /\
    inr (results_of false
           [(true, [0;1]); (false, [1;1;0]); (true, [0;0]); (false, [0;0;0])] rs)
    = result (session [[1;1;0]]
                (args_of false
                   [(true, [0;1]); (false, [1;1;0]); (true, [0;0]);
                    (false, [0;0;0])])) empty_store.
Proof.
  apply (closures_independent empty_store empty_store empty_store
           [[0;1]; [1;0]] [[1;1;0]]
           [(true, [0;1]); (false, [1;1;0]); (true, [0;0]); (false, [0;0;0])]
           2 3).
  - discriminate.
  - discriminate.
  - closed_list.
  - closed_list.
  - repeat (apply List.Forall_cons; [cbn [fst snd]; closed_list |]).
    apply List.Forall_nil.
Defined.

Example session2_interleaved :
  result (session2 [[0;1]; [1;0]] [[0;1]; [1;0]]
            [(true, [0;1]); (false, [0;0]); (true, [0;0]); (false, [0;0])])
         empty_store
  = inr [1; 0; 1; 0].
Proof. vm_compute. reflexivity. Qed.

